(** * use-abortable-effect: a shallow embedding of [src/index.js]

    The hook [useAbortableEffect] wires two host facilities together: the
    cancellation primitive ([AbortController]) and the reactive framework's
    [useRef]/[useEffect].  The development models

    - JavaScript values as far as the hook inspects them,
    - the store the hook works on (controller objects, ref cells) together
      with an event log that records every call the hook makes,
    - [createAbortController] and [useAbortableEffect] line by line,
    - the host framework's scheduling of effects and their cleanups,

    and then proves the properties of the specification about them. *)

From Stdlib Require Import Floats.SpecFloat.
From stdpp Require Import base numbers relations list strings.

Set Default Proof Using "Type".

(** ** JavaScript values *)

(** A number is an IEEE 754 double, given as the Standard Library specifies
    them; the doubles are the values that are [valid_binary 53 1024], and a
    valid double has one representation.  The hook never does arithmetic, it
    only hands values back to the host for comparison. *)
Definition JsNumber : Type := spec_float.

#[global] Instance JsNumber_eq_dec : EqDecision spec_float.
Proof. solve_decision. Defined.

(** The double an integer literal denotes: the nearest one. *)
Definition number (z : Z) : JsNumber := binary_normalize 53 1024 z 0 false.

(** Primitive values. *)
Inductive Prim :=
| PUndefined
| PNull
| PBool (b : bool)
| PNum (n : JsNumber)
| PStr (s : string).

(** Controller objects live in a store and are named by their address. *)
Definition Handle := nat.

(** The values that flow through the hook.  A plain object is a reference:
    [addr] is its identity, [props] its own properties. [VController h] is
    the controller object at address [h], [VSignal h] is the object found in
    its [signal] property. *)
Inductive JsVal :=
| VPrim (p : Prim)
| VObj (addr : nat) (props : list (string * Prim))
| VController (h : Handle)
| VSignal (h : Handle).

#[global] Instance Prim_eq_dec : EqDecision Prim.
Proof. solve_decision. Defined.

#[global] Instance JsVal_eq_dec : EqDecision JsVal.
Proof. solve_decision. Defined.

Definition undefined : JsVal := VPrim PUndefined.
Definition js_true : JsVal := VPrim (PBool true).
Definition js_false : JsVal := VPrim (PBool false).

(** [a === b]: primitives by value, objects by reference; numbers as
    IEEE 754 compares them, so [NaN] differs from itself and the two zeros
    are equal. *)
Definition strict_equals (a b : JsVal) : bool :=
  match a, b with
  | VPrim (PNum x), VPrim (PNum y) => SFeqb x y
  | VPrim p, VPrim q => bool_decide (p = q)
  | VObj x _, VObj y _ => bool_decide (x = y)
  | VController h, VController k => bool_decide (h = k)
  | VSignal h, VSignal k => bool_decide (h = k)
  | _, _ => false
  end.

(** [!v] *)
Definition js_not (v : JsVal) : bool :=
  match v with
  | VPrim PUndefined | VPrim PNull => true
  | VPrim (PBool b) => negb b
  | VPrim (PNum (S754_zero _)) | VPrim (PNum S754_nan) => true
  | VPrim (PNum _) => false
  | VPrim (PStr s) => bool_decide (s = EmptyString)
  | VObj _ _ | VController _ | VSignal _ => false
  end.


(** ** The store *)

Definition Listener := nat.

(** The two kinds of object [createAbortController] can return. *)
Inductive Kind := Native | Mock.

#[global] Instance Kind_eq_dec : EqDecision Kind.
Proof. solve_decision. Defined.

(** A controller object together with its signal: [aborted] is
    [signal.aborted], [listeners] are the callbacks registered on the signal
    for the abort event. *)
Record Controller := mkController {
  kind : Kind;
  aborted : bool;
  listeners : list Listener
}.

#[global] Instance Controller_eq_dec : EqDecision Controller.
Proof. solve_decision. Defined.

(** Who called [abort()]: the hook's default cleanup or code of the caller. *)
Inductive Caller := ByBinder | ByUser.

#[global] Instance Caller_eq_dec : EqDecision Caller.
Proof. solve_decision. Defined.

(** Everything observable that happens during a run. *)
Inductive Event :=
| EvCreate (h : Handle)
    (** [createAbortController()] returned the object at [h] *)
| EvEffect (arg : JsVal)
    (** [effect(arg)] was invoked *)
| EvCustomCleanup (arg : JsVal)
    (** [cleanupFn.call(null, arg)] was invoked *)
| EvAbortCall (who : Caller) (h : Handle)
    (** [abort()] was called on the controller at [h] *)
| EvNotify (h : Handle) (l : Listener).
    (** the abort event of [h]'s signal was delivered to [l] *)

#[global] Instance Event_eq_dec : EqDecision Event.
Proof. solve_decision. Defined.

Record World := mkWorld {
  has_AbortController : bool;
    (** [typeof AbortController !== 'undefined'] *)
  heap : list Controller;
    (** the controller objects, by address *)
  refs : list JsVal;
    (** the [current] field of the objects made by [useRef], by address *)
  log : list Event
}.

Definition set_heap (hp : list Controller) (w : World) : World :=
  mkWorld (has_AbortController w) hp (refs w) (log w).
Definition set_refs (rs : list JsVal) (w : World) : World :=
  mkWorld (has_AbortController w) (heap w) rs (log w).
Definition emit (evs : list Event) (w : World) : World :=
  mkWorld (has_AbortController w) (heap w) (refs w) (log w ++ evs).

(** ** Computations: state and exceptions *)

Inductive Result (A : Type) :=
| Ok (a : A)
| Throw (e : JsVal).
Arguments Ok {A} a.
Arguments Throw {A} e.

Definition M (A : Type) : Type := World → Result A * World.

Definition ret {A} (a : A) : M A := λ w, (Ok a, w).
Definition throw {A} (e : JsVal) : M A := λ w, (Throw e, w).
Definition bind {A B} (m : M A) (k : A → M B) : M B :=
  λ w, match m w with
       | (Ok a, w') => k a w'
       | (Throw e, w') => (Throw e, w')
       end.
Definition modify (f : World → World) : M unit := λ w, (Ok tt, f w).

Notation "'let*' x ':=' m 'in' k" := (bind m (λ x, k))
  (at level 10, x name, m at level 100, k at level 200, only parsing).
Notation "m ';;' k" := (bind m (λ _, k))
  (at level 100, k at level 200, right associativity, only parsing).

(** The exception raised by a property access or a call on a value that
    has no such property. *)
Definition TypeError : JsVal := VPrim (PStr "TypeError").

(** ** The cancellation primitive *)

(** Modelled from the spec: the host's [AbortController], which is not part
    of the repository.  [abort()] flips [aborted] and notifies the listeners
    of the signal, once; on an aborted signal it does nothing.  The [Mock]
    case is the object literal of [createAbortController], whose [abort] is
    [noop]. *)
Definition abort_object (h : Handle) (w : World) : World :=
  match heap w !! h with
  | Some c =>
      match kind c with
      | Mock => w
      | Native =>
          if aborted c then w
          else emit (map (EvNotify h) (listeners c))
                 (set_heap (<[h := mkController Native true (listeners c)]> (heap w)) w)
      end
  | None => w
  end.

(** [controller.abort()] as a call: it is recorded, then the object acts. *)
Definition call_abort (who : Caller) (h : Handle) (w : World) : World :=
  abort_object h (emit [EvAbortCall who h] w).

(** Modelled from the spec: [signal.addEventListener('abort', l)] of the
    host's primitive; a listener already registered is not added again.  On
    the mock object it is [noop]. *)
Definition add_listener (h : Handle) (l : Listener) (w : World) : World :=
  match heap w !! h with
  | Some c =>
      match kind c with
      | Mock => w
      | Native =>
          if bool_decide (l ∈ listeners c) then w
          else set_heap (<[h := mkController Native (aborted c) (listeners c ++ [l])]> (heap w)) w
      end
  | None => w
  end.

(** Modelled from the spec: [signal.removeEventListener('abort', l)]. *)
Definition remove_listener (h : Handle) (l : Listener) (w : World) : World :=
  match heap w !! h with
  | Some c =>
      match kind c with
      | Mock => w
      | Native =>
          set_heap (<[h := mkController Native (aborted c)
                             (filter (λ x, x ≠ l) (listeners c))]> (heap w)) w
      end
  | None => w
  end.

(** [signal.aborted] *)
Definition signal_aborted (h : Handle) (w : World) : bool :=
  match heap w !! h with
  | Some c => aborted c
  | None => false
  end.

(** The object literal [mockAbortController] of [src/index.js], lines 8-17:
    every method is [noop] and [signal.aborted] is [false]. *)
Definition mockAbortController : Controller := mkController Mock false [].

(** Modelled from the spec: what [new AbortController()] returns. *)
Definition new_AbortController : Controller := mkController Native false [].

(** [createAbortController], lines 5-22.  Either object is freshly
    allocated by the call. *)
Definition createAbortController : M Handle :=
  λ w,
    let c := if has_AbortController w then new_AbortController
             else mockAbortController in
    let h := length (heap w) in
    (Ok h, emit [EvCreate h] (set_heap (heap w ++ [c]) w)).

(** ** Code of the caller *)

(** What code of the caller can do to the store: it holds signals and
    controllers, and the ref object the hook returned. *)
Inductive UserOp :=
| UAbort (h : Handle)
    (** [controller.abort()] on a controller it holds *)
| UAbortCurrent (r : nat)
    (** [ref.current.abort()] *)
| UListen (h : Handle) (l : Listener)
    (** [signal.addEventListener('abort', l)] *)
| UUnlisten (h : Handle) (l : Listener).
    (** [signal.removeEventListener('abort', l)] *)

Definition user_op (w : World) (op : UserOp) : World :=
  match op with
  | UAbort h => call_abort ByUser h w
  | UAbortCurrent r =>
      match refs w !! r with
      | Some (VController h) => call_abort ByUser h w
      | _ => w
      end
  | UListen h l => add_listener h l w
  | UUnlisten h l => remove_listener h l w
  end.

Definition user_ops (ops : list UserOp) (w : World) : World :=
  foldl user_op w ops.

(** A function supplied by the caller: given its argument and the store it
    finds, it performs some operations and then returns or throws. *)
Definition UserFn (A : Type) : Type := JsVal → World → list UserOp * Result A.

Definition CleanupFn : Type := UserFn unit.

(** What [effect] returns, split the way line 120 splits it:
    [typeof cleanupFn === 'function'] or not. *)
Inductive RetVal :=
| RetFunction (f : CleanupFn)
| RetOther (v : JsVal).

Definition EffectFn : Type := UserFn RetVal.

Definition call_user {A} (f : UserFn A) (arg : JsVal) : M A :=
  λ w, let '(ops, r) := f arg w in (r, user_ops ops w).

(** ** Ref objects *)

Definition new_ref (init : JsVal) : M nat :=
  λ w, (Ok (length (refs w)), set_refs (refs w ++ [init]) w).

(** [r.current] *)
Definition get_current (r : nat) : M JsVal :=
  λ w, (Ok (default undefined (refs w !! r)), w).

(** [r.current = v] *)
Definition set_current (r : nat) (v : JsVal) : M unit :=
  modify (λ w, set_refs (<[r := v]> (refs w)) w).

(** The own property [name] of a plain object. *)
Fixpoint get_prop (name : string) (props : list (string * Prim)) : JsVal :=
  match props with
  | [] => undefined
  | (k, p) :: props' => if bool_decide (k = name) then VPrim p else get_prop name props'
  end.

(** [v.signal] *)
Definition get_signal (v : JsVal) : M JsVal :=
  match v with
  | VController h => ret (VSignal h)
  | VPrim PUndefined | VPrim PNull => throw TypeError
  | VObj _ props => ret (get_prop "signal" props)
  | _ => ret undefined
  end.

(** [v.abort()] *)
Definition method_abort (who : Caller) (v : JsVal) : M unit :=
  match v with
  | VController h => modify (call_abort who h)
  | _ => throw TypeError
  end.

(** ** The hook *)

(** The function an effect callback returns (lines 121 and 124); each
    closure holds the [controller] constant of its own run. *)
Inductive Destroy :=
| DestroyCustom (cleanupFn : CleanupFn) (controller : JsVal)
    (** [() => cleanupFn.call(null, controller)] *)
| DestroyDefault (controller : JsVal).
    (** [() => controller.abort()] *)

Definition destroy_controller (d : Destroy) : JsVal :=
  match d with
  | DestroyCustom _ c => c
  | DestroyDefault c => c
  end.

(** What the host remembers between renders for the three hook calls of
    [useAbortableEffect]: the two ref objects, and of the effect the
    dependency list of the render that scheduled it last and the cleanup of
    its last run. *)
Record Hooks := mkHooks {
  firstRun : nat;
  controllerRef : nat;
  effect_deps : option (list JsVal);
  effect_destroy : option Destroy
}.

Definition set_destroy (d : option Destroy) (hk : Hooks) : Hooks :=
  mkHooks (firstRun hk) (controllerRef hk) (effect_deps hk) d.

(** Modelled from the spec: the host framework's [useRef], which is not part
    of the repository.  The first render makes the object, later renders
    hand the same object back. *)
Definition useRef (memo : option nat) (init : JsVal) : M nat :=
  match memo with
  | Some r => ret r
  | None => new_ref init
  end.

(** Modelled from the spec: the host framework's comparison of one
    dependency with its previous value, which is not part of the repository.
    The spec's shallow comparison of standard reactive-effect semantics is
    [Object.is]: primitives by value, objects by reference.  On numbers it
    is the same double: [NaN] is [NaN], and the two zeros differ. *)
Definition object_is (a b : JsVal) : bool :=
  match a, b with
  | VPrim p, VPrim q => bool_decide (p = q)
  | VObj x _, VObj y _ => bool_decide (x = y)
  | VController h, VController k => bool_decide (h = k)
  | VSignal h, VSignal k => bool_decide (h = k)
  | _, _ => false
  end.

(** Modelled from the spec: the host framework's comparison of a dependency
    list with the previous one, element by element over the positions both
    have. *)
Fixpoint areHookInputsEqual (next prev : list JsVal) : bool :=
  match next, prev with
  | n :: next', p :: prev' => object_is n p && areHookInputsEqual next' prev'
  | _, _ => true
  end.

(** Modelled from the spec: whether the host framework's [useEffect]
    schedules the callback in this render.  [memo] is [None] in the first
    render; later the list is compared with the one of the render that
    scheduled the effect last, which the host keeps until it schedules the
    effect again. *)
Definition has_effect (memo : option Hooks) (deps : option (list JsVal)) : bool :=
  match memo with
  | None => true
  | Some hk =>
      match deps, effect_deps hk with
      | Some next, Some prev => negb (areHookInputsEqual next prev)
      | _, _ => true
      end
  end.

(** The result of one call of the hook during render: the ref object it
    returns, what the host remembers, and the effect callback if one was
    scheduled (the callback closes over [effect]). *)
Record Rendered := mkRendered {
  returned : nat;
  hooks : Hooks;
  pending : option EffectFn
}.

(** [useAbortableEffect(effect, deps)], lines 98-106 and 127-130. *)
Definition useAbortableEffect (effect : EffectFn) (deps : option (list JsVal))
    (memo : option Hooks) : M Rendered :=
  let* fr := useRef (firstRun <$> memo) js_true in
  let* cr := useRef (controllerRef <$> memo) undefined in
  let* cur := get_current cr in
  (if js_not cur
   then let* c := createAbortController in set_current cr (VController c)
   else ret tt) ;;
  ret (mkRendered cr
         (mkHooks fr cr
            (if has_effect memo deps then deps else memo ≫= effect_deps)
            (memo ≫= effect_destroy))
         (if has_effect memo deps then Some effect else None)).

(** Lines 111-117: which controller this run of the callback works with. *)
Definition select_controller (hk : Hooks) : M JsVal :=
  let* fr := get_current (firstRun hk) in
  (if strict_equals fr js_false
   then let* c := createAbortController in
        set_current (controllerRef hk) (VController c)
   else set_current (firstRun hk) js_false) ;;
  get_current (controllerRef hk).

(** Lines 118-124: call [effect] and build the cleanup. *)
Definition invoke_effect (effect : EffectFn) (controller : JsVal) : M Destroy :=
  let* signal := get_signal controller in
  modify (emit [EvEffect signal]) ;;
  let* cleanupFn := call_user effect signal in
  match cleanupFn with
  | RetFunction f => ret (DestroyCustom f controller)
  | RetOther _ => ret (DestroyDefault controller)
  end.

(** The callback passed to [useEffect], lines 108-125. *)
Definition effect_callback (hk : Hooks) (effect : EffectFn) : M Destroy :=
  let* controller := select_controller hk in
  invoke_effect effect controller.

(** Calling the function the callback returned. *)
Definition run_destroy (d : Destroy) : M unit :=
  match d with
  | DestroyCustom cleanupFn controller =>
      modify (emit [EvCustomCleanup controller]) ;;
      call_user cleanupFn controller
  | DestroyDefault controller => method_abort ByBinder controller
  end.

(** ** The host framework's schedule *)

Definition run_cleanup (hk : Hooks) : M unit :=
  match effect_destroy hk with
  | Some d => run_destroy d
  | None => ret tt
  end.

(** Modelled from the spec: after a render the host runs the cleanup of the
    previous run of a scheduled effect, then the effect callback, and keeps
    what the callback returned. *)
Definition commit (r : Rendered) : M Hooks :=
  match pending r with
  | None => ret (hooks r)
  | Some effect =>
      run_cleanup (hooks r) ;;
      let* d := effect_callback (set_destroy None (hooks r)) effect in
      ret (set_destroy (Some d) (hooks r))
  end.

(** The life of one component instance that calls the hook. *)
Inductive Instance :=
| Fresh
| Live (hk : Hooks)
| Dead.

Definition memo_of (i : Instance) : option Hooks :=
  match i with
  | Live hk => Some hk
  | _ => None
  end.

Inductive Action :=
| Render (effect : EffectFn) (deps : option (list JsVal))
    (** the component renders, calling [useAbortableEffect(effect, deps)] *)
| Unmount
    (** the component instance is destroyed *)
| Outside (ops : list UserOp).
    (** code of the caller runs between renders (an event handler, say) *)

(** Modelled from the spec: one step of the host framework.  A render and
    the commit that follows it are one step, so code of the caller runs
    between steps only; what it may do between the first render and the first
    call of [effect] is stated on [useAbortableEffect] and [effect_callback]
    themselves. *)
Definition step (a : Action) (i : Instance) : M Instance :=
  match a, i with
  | Render effect deps, (Fresh | Live _) =>
      let* r := useAbortableEffect effect deps (memo_of i) in
      let* hk := commit r in
      ret (Live hk)
  | Unmount, Live hk => run_cleanup hk ;; ret Dead
  | Outside ops, _ => modify (user_ops ops) ;; ret i
  | _, _ => ret i
  end.

(** A life of an instance: the steps in turn, up to the first exception.
    What the host does with an instance after an exception is not
    modelled. *)
Fixpoint run (acts : list Action) (i : Instance) : M Instance :=
  match acts with
  | [] => ret i
  | a :: acts' => let* i' := step a i in run acts' i'
  end.

Definition empty_world (native : bool) : World := mkWorld native [] [] [].

(** ** Reading the log *)

(** The hook tore down the run that worked with [h]: its default cleanup
    called [abort()] on [h], or the cleanup function of the caller was
    called with [h]. *)
Definition is_teardown (h : Handle) (e : Event) : bool :=
  match e with
  | EvAbortCall ByBinder k => bool_decide (k = h)
  | EvCustomCleanup (VController k) => bool_decide (k = h)
  | _ => false
  end.

Definition is_activation (h : Handle) (e : Event) : bool :=
  match e with
  | EvEffect (VSignal k) => bool_decide (k = h)
  | _ => false
  end.

Definition is_notify (h : Handle) (l : Listener) (e : Event) : bool :=
  match e with
  | EvNotify k m => bool_decide (k = h) && bool_decide (m = l)
  | _ => false
  end.

(** Events that only code of the caller and the primitive produce. *)
Definition is_user_event (e : Event) : bool :=
  match e with
  | EvAbortCall ByUser _ | EvNotify _ _ => true
  | _ => false
  end.

Definition count (p : Event → bool) (evs : list Event) : nat :=
  length (filter (λ e, p e = true) evs).

Definition teardowns (h : Handle) (evs : list Event) : nat :=
  count (is_teardown h) evs.
Definition activations (h : Handle) (evs : list Event) : nat :=
  count (is_activation h) evs.
Definition notifications (h : Handle) (l : Listener) (evs : list Event) : nat :=
  count (is_notify h l) evs.

(** The argument of the last call of [effect]. *)
Fixpoint latest_activation (evs : list Event) : option JsVal :=
  match evs with
  | [] => None
  | e :: evs' =>
      match latest_activation evs' with
      | Some v => Some v
      | None => match e with EvEffect v => Some v | _ => None end
      end
  end.

(** Where the hook stands, read off the log: no controller yet; [h] made
    and not yet used by a run; a run is working with [h]; the run that worked
    with [h] was torn down. *)
Inductive Phase :=
| PInit
| PReady (h : Handle)
| PActive (h : Handle)
| PIdle (h : Handle).

#[global] Instance Phase_eq_dec : EqDecision Phase.
Proof. solve_decision. Defined.

(** One event against the order the hook keeps.  A controller is made only
    while no run is active, [effect] gets the signal of the controller made
    last, and only the active run is torn down. *)
Definition next (p : Phase) (e : Event) : option Phase :=
  match e, p with
  | EvAbortCall ByUser _, _ | EvNotify _ _, _ => Some p
  | EvCreate h, PInit => Some (PReady h)
  | EvCreate h, PIdle k => if bool_decide (k < h) then Some (PReady h) else None
  | EvEffect (VSignal h), PReady k =>
      if bool_decide (h = k) then Some (PActive k) else None
  | EvAbortCall ByBinder h, PActive k
  | EvCustomCleanup (VController h), PActive k =>
      if bool_decide (h = k) then Some (PIdle k) else None
  | _, _ => None
  end.

Fixpoint scan (p : Phase) (evs : list Event) : option Phase :=
  match evs with
  | [] => Some p
  | e :: evs' =>
      match next p e with
      | Some q => scan q evs'
      | None => None
      end
  end.

(** ** Predicates used in the statements *)

(** What every operation of the primitive keeps: the environment, the ref
    objects, the number of controller objects, their kind, an [aborted]
    that was set, and the mock objects as they are; the events it adds are
    calls by the caller and notifications. *)
Definition keeps (w w' : World) : Prop :=
  has_AbortController w' = has_AbortController w
  ∧ refs w' = refs w
  ∧ length (heap w') = length (heap w)
  ∧ (∃ evs, log w' = log w ++ evs ∧ Forall (λ e, is_user_event e = true) evs)
  ∧ ∀ (k : Handle) (c : Controller), heap w !! k = Some c →
      ∃ c', heap w' !! k = Some c' ∧ kind c' = kind c
            ∧ (aborted c = true → aborted c' = true)
            ∧ (kind c = Mock → c' = c).

(** The hook's memory after a render: two distinct ref objects, the flag
    and the controller of the current run. *)
Definition hooks_ok (hk : Hooks) (w : World) : Prop :=
  firstRun hk ≠ controllerRef hk
  ∧ (∃ b, refs w !! firstRun hk = Some (VPrim (PBool b)))
  ∧ (∃ h, refs w !! controllerRef hk = Some (VController h)
          ∧ h < length (heap w)).

(** The hook's memory while the run that works with [h] is active. *)
Definition live_ok (hk : Hooks) (w : World) (h : Handle) : Prop :=
  firstRun hk ≠ controllerRef hk
  ∧ refs w !! firstRun hk = Some js_false
  ∧ refs w !! controllerRef hk = Some (VController h)
  ∧ h < length (heap w)
  ∧ ∃ d, effect_destroy hk = Some d ∧ destroy_controller d = VController h.

(** The instance and the phase read off the log agree. *)
Definition agrees (i : Instance) (w : World) (p : Phase) : Prop :=
  match i with
  | Fresh => p = PInit
  | Live hk => ∃ h, p = PActive h ∧ live_ok hk w h
  | Dead => ∃ h, p = PIdle h ∧ h < length (heap w)
  end.

(** The handles no run has worked with yet. *)
Definition beyond (p : Phase) (h : Handle) : Prop :=
  match p with
  | PInit => True
  | PReady k => k ≤ h
  | PActive k | PIdle k => k < h
  end.

Definition is_active (p : Phase) (h : Handle) : nat :=
  match p with
  | PActive k => if bool_decide (k = h) then 1 else 0
  | _ => 0
  end.

(** The run of the effect callback up to the call of [effect]
    (lines 111-118): the argument of the call and the store it finds. *)
Definition invocation (hk : Hooks) : M JsVal :=
  let* controller := select_controller hk in
  let* signal := get_signal controller in
  modify (emit [EvEffect signal]) ;;
  ret signal.

(** What the callback does with the value [effect] returned (lines 120-124). *)
Definition cleanup_for (controller : JsVal) (cleanupFn : RetVal) : Destroy :=
  match cleanupFn with
  | RetFunction f => DestroyCustom f controller
  | RetOther _ => DestroyDefault controller
  end.

(** The elementary changes of the store.  Whatever the hook, the host and
    the caller's code do is a sequence of them. *)
Inductive touch : World → World → Prop :=
| touch_effect v w : touch w (emit [EvEffect v] w)
| touch_cleanup v w : touch w (emit [EvCustomCleanup v] w)
| touch_abort who h w : touch w (call_abort who h w)
| touch_listen h l w : touch w (add_listener h l w)
| touch_unlisten h l w : touch w (remove_listener h l w)
| touch_create w : touch w (createAbortController w).2
| touch_refs rs w : touch w (set_refs rs w).

(** A computation that changes the store by elementary changes only. *)
Definition tracked {A} (m : M A) : Prop := ∀ w, rtc touch w (m w).2.

(** The controller at [h] is the host's own, with each listener registered
    once. *)
Definition native_at (h : Handle) (w : World) : Prop :=
  ∃ c, heap w !! h = Some c ∧ kind c = Native ∧ NoDup (listeners c).

(** [l] is registered on the signal of [h]. *)
Definition registered (h : Handle) (l : Listener) (w : World) : bool :=
  match heap w !! h with
  | Some c => bool_decide (l ∈ listeners c)
  | None => false
  end.

(** A store without the host's primitive: every controller is the mock
    object. *)
Definition all_mock (w : World) : Prop :=
  has_AbortController w = false
  ∧ Forall (λ c, c = mockAbortController) (heap w).

Definition is_effect_event (e : Event) : bool :=
  match e with
  | EvEffect _ => true
  | _ => false
  end.

(** ** Sample inputs *)

(** The hook's memory and the store right after the first render in an
    environment that has [AbortController]. *)
Definition sample_hooks : Hooks := mkHooks 0 1 None None.
Definition sample_world : World :=
  mkWorld true [new_AbortController] [js_true; VController 0] [EvCreate 0].

(** [() => {}] *)
Definition effect_nothing : EffectFn := λ _ _, ([], Ok (RetOther undefined)).

(** [controller => { controller.abort() }] *)
Definition cleanup_abort : CleanupFn :=
  λ c _, (match c with VController h => [UAbort h] | _ => [] end, Ok ()).

(** [() => controller => { controller.abort() }] *)
Definition effect_custom : EffectFn := λ _ _, ([], Ok (RetFunction cleanup_abort)).

(** [signal => { signal.addEventListener('abort', listener7) }] *)
Definition effect_listen : EffectFn :=
  λ s _, (match s with VSignal h => [UListen h 7] | _ => [] end,
          Ok (RetOther undefined)).

(** [() => { throw 'boom' }] *)
Definition effect_throw : EffectFn := λ _ _, ([], Throw (VPrim (PStr "boom"))).

(** [() => () => { throw 'boom' }] *)
Definition effect_cleanup_throw : EffectFn :=
  λ _ _, ([], Ok (RetFunction (λ _ _, ([], Throw (VPrim (PStr "boom")))))).


(** A life in an environment without [AbortController]: the effect
    registers a listener, then a handler calls [ref.current.abort()]. *)
Definition fallback_life : list Action :=
  [Render effect_listen None; Outside [UAbortCurrent 1]].


(** The dependency lists of the repository's tests. *)
Definition some_value : option (list JsVal) := Some [VPrim (PStr "someValue")].
Definition new_value : option (list JsVal) := Some [VPrim (PStr "newValue")].

(** ** Predicates of the further properties *)

(** Each listener is registered once on each signal. *)
Definition listeners_ok (w : World) : Prop :=
  ∀ (k : Handle) (c : Controller), heap w !! k = Some c → NoDup (listeners c).

(** No listener was notified twice, and none before its signal was
    aborted. *)
Definition notified_once (w : World) : Prop :=
  listeners_ok w
  ∧ ∀ h l, notifications h l (log w) ≤ 1
           ∧ (signal_aborted h w = false → notifications h l (log w) = 0).

(** The hook's memory and the store after the first run of [() => {}]
    without a dependency list. *)
Definition sample_live_hooks : Hooks :=
  mkHooks 0 1 None (Some (DestroyDefault (VController 0))).
Definition sample_live_world : World :=
  (run [Render effect_nothing None] Fresh (empty_world true)).2.

(** The environment has [AbortController] and every controller in the store
    is the host's. *)
Definition all_native (w : World) : Prop :=
  has_AbortController w = true
  ∧ ∀ (k : Handle) (c : Controller), heap w !! k = Some c → kind c = Native.

(** [effect] never returns a function, so every run gets the default
    cleanup. *)
Definition plain_effect (effect : EffectFn) : Prop :=
  ∀ arg w f, (effect arg w).2 ≠ Ok (RetFunction f).

Definition plain_action (a : Action) : Prop :=
  match a with
  | Render effect _ => plain_effect effect
  | _ => True
  end.

(** Every controller in the store is aborted, but for the one excepted. *)
Definition aborted_except (h : option Handle) (w : World) : Prop :=
  ∀ k, k < length (heap w) → Some k ≠ h → signal_aborted k w = true.

(** An instance whose runs all have the default cleanup: only the
    controller of the active run may still be running. *)
Definition settled (i : Instance) (w : World) : Prop :=
  match i with
  | Fresh => heap w = []
  | Live hk =>
      ∃ h, live_ok hk w h
           ∧ effect_destroy hk = Some (DestroyDefault (VController h))
           ∧ aborted_except (Some h) w
  | Dead => aborted_except None w
  end.

(** A life with the default cleanup only: two runs, an abort through the
    ref object, and the end of the instance. *)
Definition default_life : list Action :=
  [Render effect_nothing None; Render effect_listen None;
   Outside [UAbortCurrent 1]; Unmount].

Definition is_create (e : Event) : bool :=
  match e with
  | EvCreate _ => true
  | _ => false
  end.

(** Between steps the hook holds no controller that has not served a run. *)
Definition not_ready (p : Phase) : Prop :=
  match p with
  | PReady _ => False
  | _ => True
  end.

(** The ref objects of the hook lie above the [n] ref objects that were
    there before the instance; those are as in [rs], and the hook has made
    none (before the first render) or two. *)
Definition own_refs (n : nat) (rs : list JsVal) (i : Instance) (w : World) : Prop :=
  (∀ r, r < n → refs w !! r = rs !! r)
  ∧ match i with
    | Fresh => length (refs w) = n
    | Live hk => length (refs w) = n + 2 ∧ n ≤ firstRun hk ∧ n ≤ controllerRef hk
    | Dead => length (refs w) = n + 2
    end.

(** Every event but the notification of a listener. *)
Definition is_step_event (e : Event) : bool :=
  match e with
  | EvNotify _ _ => false
  | _ => true
  end.

Definition steps_of (evs : list Event) : list Event :=
  filter (λ e, is_step_event e = true) evs.

(** Two stores that differ only in what their controllers are and do: the
    same ref objects, as many controllers, the same events but for
    notifications. *)
Definition alike (w w' : World) : Prop :=
  refs w = refs w'
  ∧ length (heap w) = length (heap w')
  ∧ steps_of (log w) = steps_of (log w').

(** Code of the caller that does not look at the state of controllers or at
    the environment. *)
Definition blind {A} (f : UserFn A) : Prop :=
  ∀ arg w w', alike w w' → f arg w = f arg w'.

Definition blind_effect (effect : EffectFn) : Prop :=
  blind effect ∧ ∀ arg w f, (effect arg w).2 = Ok (RetFunction f) → blind f.

Definition blind_action (a : Action) : Prop :=
  match a with
  | Render effect _ => blind_effect effect
  | _ => True
  end.

Definition blind_destroy (d : Destroy) : Prop :=
  match d with
  | DestroyCustom f _ => blind f
  | DestroyDefault _ => True
  end.

Definition blind_hooks (hk : Hooks) : Prop :=
  match effect_destroy hk with
  | Some d => blind_destroy d
  | None => True
  end.

Definition blind_instance (i : Instance) : Prop :=
  match i with
  | Live hk => blind_hooks hk
  | _ => True
  end.

(** A computation that takes the same course in stores that are alike. *)
Definition alike_run {A} (m : M A) : Prop :=
  ∀ w w', alike w w' → (m w).1 = (m w').1 ∧ alike (m w).2 (m w').2.

(** A life with a listener, an abort through the ref object and a cleanup
    function of the caller. *)
Definition mixed_life : list Action :=
  [Render effect_listen None; Outside [UAbortCurrent 1];
   Render effect_custom None; Unmount].

(** A life whose second run throws: [() => {}], then [() => { throw 'boom' }]. *)
Definition throwing_life : list Action :=
  [Render effect_nothing None; Render effect_throw None].

(** Dependency lists of different lengths. *)
Definition deps_a_b : option (list JsVal) := Some [VPrim (PStr "a"); VPrim (PStr "b")].
Definition deps_a : option (list JsVal) := Some [VPrim (PStr "a")].
Definition deps_a_c : option (list JsVal) := Some [VPrim (PStr "a"); VPrim (PStr "c")].

(** * Proofs *)

(** ** The store under the primitive's operations *)

Section store.
Implicit Types (w : World) (h k : Handle) (c : Controller).

Lemma keeps_refl w : keeps w w.
Proof.
  repeat split; auto.
  - exists []. by rewrite app_nil_r.
  - intros k c Hk. exists c. auto.
Qed.

Lemma keeps_trans w1 w2 w3 : keeps w1 w2 → keeps w2 w3 → keeps w1 w3.
Proof.
  intros (Ha & Hr & Hl & (e1 & He1 & Hf1) & Hk) (Ha' & Hr' & Hl' & (e2 & He2 & Hf2) & Hk').
  repeat split; try congruence.
  - exists (e1 ++ e2). split.
    + by rewrite He2, He1, app_assoc.
    + by apply Forall_app.
  - intros k c Hc. destruct (Hk k c Hc) as (c' & Hc' & Hkind & Hab & Hm).
    destruct (Hk' k c' Hc') as (c'' & Hc'' & Hkind' & Hab' & Hm').
    exists c''. repeat split; auto; try congruence.
    intros HM. rewrite Hm' by congruence. auto.
Qed.

Lemma keeps_emit_user w evs :
  Forall (λ e, is_user_event e = true) evs → keeps w (emit evs w).
Proof.
  intros Hf. repeat split; auto.
  - by exists evs.
  - intros k c Hk. exists c. auto.
Qed.

Lemma keeps_update w h c0 c1 :
  heap w !! h = Some c0 → kind c0 = Native → kind c1 = Native →
  (aborted c0 = true → aborted c1 = true) →
  keeps w (set_heap (<[h := c1]> (heap w)) w).
Proof.
  intros Hh Hk0 Hk1 Hab. repeat split; simpl; auto.
  - by rewrite length_insert.
  - exists []. by rewrite app_nil_r.
  - intros k c Hk. destruct (decide (k = h)) as [->|Hne].
    + exists c1. rewrite list_lookup_insert_eq by (by eapply lookup_lt_Some).
      assert (c = c0) as -> by congruence.
      repeat split; auto; congruence.
    + exists c. rewrite list_lookup_insert_ne by auto. auto.
Qed.

Lemma Forall_notify h ls :
  Forall (λ e, is_user_event e = true) (map (EvNotify h) ls).
Proof. apply Forall_forall. intros e [l [-> _]]%list_elem_of_fmap. done. Qed.

Lemma abort_object_keeps h w : keeps w (abort_object h w).
Proof.
  unfold abort_object.
  destruct (heap w !! h) as [c|] eqn:Hh; [|apply keeps_refl].
  destruct (kind c) eqn:Hk; [|apply keeps_refl].
  destruct (aborted c) eqn:Ha; [apply keeps_refl|].
  eapply keeps_trans.
  - eapply (keeps_update w h c (mkController Native true (listeners c))); eauto.
  - apply keeps_emit_user, Forall_notify.
Qed.

Lemma call_abort_keeps h w : keeps w (call_abort ByUser h w).
Proof.
  unfold call_abort. eapply keeps_trans; [|apply abort_object_keeps].
  apply keeps_emit_user. by constructor.
Qed.

Lemma add_listener_keeps h l w : keeps w (add_listener h l w).
Proof.
  unfold add_listener.
  destruct (heap w !! h) as [c|] eqn:Hh; [|apply keeps_refl].
  destruct (kind c) eqn:Hk; [|apply keeps_refl].
  case_bool_decide; [apply keeps_refl|].
  eapply keeps_update; eauto.
Qed.

Lemma remove_listener_keeps h l w : keeps w (remove_listener h l w).
Proof.
  unfold remove_listener.
  destruct (heap w !! h) as [c|] eqn:Hh; [|apply keeps_refl].
  destruct (kind c) eqn:Hk; [|apply keeps_refl].
  eapply keeps_update; eauto.
Qed.

Lemma user_op_keeps op w : keeps w (user_op w op).
Proof.
  destruct op as [h|r|h l|h l]; simpl.
  - apply call_abort_keeps.
  - destruct (refs w !! r) as [[| | h|]|]; try apply keeps_refl.
    apply call_abort_keeps.
  - apply add_listener_keeps.
  - apply remove_listener_keeps.
Qed.

Lemma user_ops_keeps ops w : keeps w (user_ops ops w).
Proof.
  unfold user_ops. revert w.
  induction ops as [|op ops IH]; intros w; simpl; [apply keeps_refl|].
  eapply keeps_trans; [apply user_op_keeps|apply IH].
Qed.
End store.

(** ** The hook, run by run *)

Section hook.
Implicit Types (w : World) (h : Handle) (hk : Hooks) (effect : EffectFn).

Lemma keeps_hooks_ok hk w w' : keeps w w' → hooks_ok hk w → hooks_ok hk w'.
Proof.
  intros (_ & Hr & Hl & _) (Hne & Hf & Hc). unfold hooks_ok.
  rewrite Hr, Hl. auto.
Qed.

Lemma keeps_live_ok hk w w' h : keeps w w' → live_ok hk w h → live_ok hk w' h.
Proof.
  intros (_ & Hr & Hl & _) (Hne & Hf & Hc & Hh & Hd). unfold live_ok.
  rewrite Hr, Hl. auto.
Qed.

Lemma live_hooks_ok hk w h : live_ok hk w h → hooks_ok hk w.
Proof.
  intros (Hne & Hf & Hc & Hh & Hd). repeat split; eauto.
Qed.

(** The first render: both ref objects and the first controller are made. *)
Lemma render_first effect deps w :
  useAbortableEffect effect deps None w =
    (Ok (mkRendered (S (length (refs w)))
           (mkHooks (length (refs w)) (S (length (refs w))) deps None)
           (Some effect)),
     mkWorld (has_AbortController w)
       (heap w ++ [if has_AbortController w then new_AbortController
                   else mockAbortController])
       (refs w ++ [js_true; VController (length (heap w))])
       (log w ++ [EvCreate (length (heap w))])).
Proof.
  unfold useAbortableEffect, bind, useRef, new_ref, get_current,
    createAbortController, set_current, modify, ret, set_refs, emit, set_heap.
  simpl. rewrite length_app. simpl.
  replace (length (refs w) + 1) with (S (length (refs w))) by lia.
  rewrite lookup_app_r by (rewrite length_app; simpl; lia).
  rewrite length_app. simpl.
  replace (S (length (refs w)) - (length (refs w) + 1)) with 0 by lia.
  simpl. f_equal. f_equal.
  rewrite <- (app_assoc (refs w)). simpl.
  change (refs w ++ [js_true; undefined]) with (refs w ++ js_true :: [undefined]).
  rewrite (cons_middle js_true), app_assoc.
  rewrite (insert_app_r_alt _ _ (S (length (refs w))))
    by (rewrite length_app; simpl; lia).
  rewrite length_app. simpl.
  replace (S (length (refs w)) - (length (refs w) + 1)) with 0 by lia.
  simpl. by rewrite <- app_assoc.
Qed.

(** A later render: the same ref objects, no controller is made. *)
Lemma render_again effect deps hk w :
  hooks_ok hk w →
  useAbortableEffect effect deps (Some hk) w =
    (Ok (mkRendered (controllerRef hk)
           (mkHooks (firstRun hk) (controllerRef hk)
              (if has_effect (Some hk) deps then deps else effect_deps hk)
              (effect_destroy hk))
           (if has_effect (Some hk) deps then Some effect else None)),
     w).
Proof.
  intros (Hne & Hf & (h & Hc & Hh)).
  unfold useAbortableEffect, bind, useRef, get_current, ret.
  cbn [fmap option_fmap option_map mbind option_bind].
  rewrite Hc. reflexivity.
Qed.
(** The first run: the flag is cleared, the controller in the ref object
    is used as it is. *)
Lemma invocation_first hk w h :
  firstRun hk ≠ controllerRef hk →
  refs w !! firstRun hk = Some js_true →
  refs w !! controllerRef hk = Some (VController h) →
  invocation hk w =
    (Ok (VSignal h),
     mkWorld (has_AbortController w) (heap w)
       (<[firstRun hk := js_false]> (refs w))
       (log w ++ [EvEffect (VSignal h)])).
Proof.
  intros Hne Hf Hc.
  unfold invocation, select_controller, bind, get_current, set_current,
    modify, get_signal, ret. simpl.
  rewrite Hf. simpl.
  rewrite list_lookup_insert_ne by auto. rewrite Hc. simpl. done.
Qed.

(** A later run: a controller is made and stored before [effect] is
    called. *)
Lemma invocation_later hk w :
  firstRun hk ≠ controllerRef hk →
  refs w !! firstRun hk = Some js_false →
  controllerRef hk < length (refs w) →
  invocation hk w =
    (Ok (VSignal (length (heap w))),
     mkWorld (has_AbortController w)
       (heap w ++ [if has_AbortController w then new_AbortController
                   else mockAbortController])
       (<[controllerRef hk := VController (length (heap w))]> (refs w))
       (log w ++ [EvCreate (length (heap w)); EvEffect (VSignal (length (heap w)))])).
Proof.
  intros Hne Hf Hc.
  unfold invocation, select_controller, bind, get_current, set_current,
    modify, get_signal, ret, createAbortController. simpl.
  rewrite Hf. simpl.
  rewrite list_lookup_insert_eq by auto. simpl.
  unfold emit, set_refs, set_heap. simpl. by rewrite <- app_assoc.
Qed.

Lemma invocation_ok hk w :
  hooks_ok hk w →
  ∃ h w1, invocation hk w = (Ok (VSignal h), w1)
          ∧ refs w1 !! controllerRef hk = Some (VController h)
          ∧ refs w1 !! firstRun hk = Some js_false
          ∧ h < length (heap w1)
          ∧ length (refs w1) = length (refs w)
          ∧ has_AbortController w1 = has_AbortController w.
Proof.
  intros (Hne & (b & Hf) & (h & Hc & Hh)).
  pose proof (lookup_lt_Some _ _ _ Hf) as Hlf.
  pose proof (lookup_lt_Some _ _ _ Hc) as Hlc.
  destruct b.
  - exists h. eexists. split; [by apply invocation_first|]. simpl.
    rewrite list_lookup_insert_ne by auto.
    rewrite list_lookup_insert_eq by auto.
    rewrite length_insert. auto.
  - exists (length (heap w)). eexists. split; [by apply invocation_later|]. simpl.
    rewrite list_lookup_insert_eq by auto.
    rewrite list_lookup_insert_ne by auto.
    rewrite length_insert, length_app. simpl. repeat split; auto. lia.
Qed.

Lemma get_prop_prim name props : ∃ p, get_prop name props = VPrim p.
Proof.
  induction props as [|[k q] props IH]; simpl; [by eexists|].
  case_bool_decide; [by eexists|done].
Qed.

(** The callback is the run up to the call, the call, and the choice of
    the cleanup. *)
Lemma effect_callback_invocation hk effect w h w1 :
  invocation hk w = (Ok (VSignal h), w1) →
  effect_callback hk effect w =
    ((match (effect (VSignal h) w1).2 with
      | Ok v => Ok (cleanup_for (VController h) v)
      | Throw e => Throw e
      end), user_ops (effect (VSignal h) w1).1 w1).
Proof.
  unfold invocation, effect_callback, invoke_effect, bind.
  destruct (select_controller hk w) as [[c|e] w0]; [|done].
  destruct c as [p|a ps|k|k]; simpl.
  - destruct p; simpl; try done.
  - destruct (get_prop_prim "signal" ps) as [p ->]. done.
  - unfold modify, call_user, ret. simpl. intros [= -> <-].
    destruct (effect (VSignal h) _) as [ops [[f|v]|e]]; done.
  - done.
Qed.
End hook.

(** ** The order of events *)

Section order.
Implicit Types (w : World) (h : Handle) (hk : Hooks) (p q : Phase)
  (evs : list Event).

Lemma scan_app p evs1 evs2 :
  scan p (evs1 ++ evs2) = scan p evs1 ≫= λ q, scan q evs2.
Proof.
  revert p. induction evs1 as [|e evs1 IH]; intros p; simpl; [done|].
  destruct (next p e); simpl; auto.
Qed.

Lemma scan_user p evs :
  Forall (λ e, is_user_event e = true) evs → scan p evs = Some p.
Proof.
  induction 1 as [|e evs He _ IH]; simpl; [done|].
  destruct e as [| | |[] |]; simpl in He; try discriminate; by rewrite ?IH.
Qed.

Lemma scan_keeps p q w w' evs :
  scan p (log w ++ evs) = Some q → keeps (emit evs w) w' →
  scan p (log w') = Some q.
Proof.
  intros Hs (_ & _ & _ & (us & Hl & Hu) & _). simpl in Hl.
  rewrite Hl, scan_app, Hs. simpl. by apply scan_user.
Qed.

Lemma next_teardown h e : is_teardown h e = true → next (PActive h) e = Some (PIdle h).
Proof.
  destruct e as [|[]|[]|[]|]; simpl; try discriminate;
    intros ->%bool_decide_eq_true; by rewrite bool_decide_eq_true_2.
Qed.

(** Calling the cleanup of the run that worked with [h]: one teardown
    event, then whatever the caller's code and the primitive do. *)
Lemma run_destroy_shape d w h :
  destroy_controller d = VController h →
  ∃ e, is_teardown h e = true
       ∧ keeps (emit [e] w) (run_destroy d w).2
       ∧ (∀ c, d = DestroyDefault c →
            e = EvAbortCall ByBinder h ∧ run_destroy d w = (Ok tt, call_abort ByBinder h w))
       ∧ (∀ f c, d = DestroyCustom f c →
            e = EvCustomCleanup (VController h)
            ∧ run_destroy d w =
                ((f (VController h) (emit [e] w)).2,
                 user_ops (f (VController h) (emit [e] w)).1 (emit [e] w))).
Proof.
  destruct d as [f c|c]; simpl; intros ->.
  - exists (EvCustomCleanup (VController h)). simpl.
    rewrite bool_decide_eq_true_2 by done.
    unfold bind, modify, call_user. simpl.
    destruct (f _ _) as [ops r] eqn:Hf. simpl.
    split; [done|]. split; [destruct r; apply user_ops_keeps|].
    split; [done|].
    intros f' c' [= <- <-]. rewrite Hf. by destruct r.
  - exists (EvAbortCall ByBinder h). simpl.
    rewrite bool_decide_eq_true_2 by done.
    unfold modify. simpl.
    split; [done|]. split; [apply abort_object_keeps|]. by split.
Qed.

(** A run of the callback: the events up to the call of [effect], then
    whatever the caller's code and the primitive do. *)
Lemma effect_callback_shape hk effect w :
  hooks_ok hk w →
  ∃ h w1, invocation hk w = (Ok (VSignal h), w1)
          ∧ keeps w1 (effect_callback hk effect w).2
          ∧ ∀ d, (effect_callback hk effect w).1 = Ok d →
              destroy_controller d = VController h.
Proof.
  intros Hok. destruct (invocation_ok hk w Hok) as (h & w1 & Hi & _).
  exists h, w1. split; [done|].
  rewrite (effect_callback_invocation _ _ _ _ _ Hi). simpl.
  split; [apply user_ops_keeps|].
  intros d. destruct (effect _ _).2 as [[f|v]|e]; simpl; by intros [= <-].
Qed.
Lemma step_render_fresh effect deps w :
  step (Render effect deps) Fresh w =
    let hk := mkHooks (length (refs w)) (S (length (refs w))) deps None in
    let w1 := (useAbortableEffect effect deps None w).2 in
    match effect_callback hk effect w1 with
    | (Ok d, w2) => (Ok (Live (set_destroy (Some d) hk)), w2)
    | (Throw e, w2) => (Throw e, w2)
    end.
Proof.
  unfold step, bind. simpl. rewrite render_first. simpl.
  unfold commit, bind, run_cleanup, ret. simpl.
  unfold set_destroy at 1. simpl.
  destruct (effect_callback _ _ _) as [[d|e] w2]; done.
Qed.

Lemma step_render_live effect deps hk w :
  hooks_ok hk w →
  step (Render effect deps) (Live hk) w =
    let hk' := mkHooks (firstRun hk) (controllerRef hk) deps None in
    if has_effect (Some hk) deps then
      match run_cleanup hk w with
      | (Ok _, w1) =>
          match effect_callback hk' effect w1 with
          | (Ok d, w2) => (Ok (Live (set_destroy (Some d) hk')), w2)
          | (Throw e, w2) => (Throw e, w2)
          end
      | (Throw e, w1) => (Throw e, w1)
      end
    else (Ok (Live (mkHooks (firstRun hk) (controllerRef hk) (effect_deps hk)
                      (effect_destroy hk))), w).
Proof.
  intros Hok. unfold step, bind. cbn [memo_of].
  rewrite (render_again _ _ _ _ Hok).
  unfold commit. cbn [pending hooks].
  destruct (has_effect (Some hk) deps); [|done].
  unfold bind, run_cleanup. cbn [effect_destroy].
  destruct (match effect_destroy hk with Some d => run_destroy d | None => ret () end w)
    as [[[]|e] w1]; [|done].
  unfold set_destroy. cbn [firstRun controllerRef effect_deps].
  destruct (effect_callback _ _ _) as [[d|e] w2]; done.
Qed.

(** A run of the callback, from a state in which no run is active. *)
Lemma activate_inv hk effect w p :
  firstRun hk ≠ controllerRef hk →
  scan PInit (log w) = Some p →
  (∃ h, p = PReady h ∧ refs w !! firstRun hk = Some js_true
        ∧ refs w !! controllerRef hk = Some (VController h)
        ∧ h < length (heap w))
  ∨ (∃ h, p = PIdle h ∧ refs w !! firstRun hk = Some js_false
          ∧ controllerRef hk < length (refs w) ∧ h < length (heap w)) →
  ∃ h', scan PInit (log (effect_callback hk effect w).2) = Some (PActive h')
        ∧ ∀ d, (effect_callback hk effect w).1 = Ok d →
            live_ok (set_destroy (Some d) hk) (effect_callback hk effect w).2 h'.
Proof.
  intros Hne Hs Hcase.
  assert (∃ h' w1, invocation hk w = (Ok (VSignal h'), w1)
                   ∧ scan PInit (log w1) = Some (PActive h')
                   ∧ refs w1 !! firstRun hk = Some js_false
                   ∧ refs w1 !! controllerRef hk = Some (VController h')
                   ∧ h' < length (heap w1)) as (h' & w1 & Hi & Hs1 & Hf1 & Hc1 & Hh1).
  { destruct Hcase as [(h & -> & Hf & Hc & Hh)|(h & -> & Hf & Hc & Hh)].
    - exists h. eexists. split; [by apply invocation_first|]. simpl.
      pose proof (lookup_lt_Some _ _ _ Hf). 
      rewrite scan_app, Hs. simpl. rewrite bool_decide_eq_true_2 by done.
      rewrite list_lookup_insert_eq by done.
      rewrite list_lookup_insert_ne by done. done.
    - exists (length (heap w)). eexists. split; [by apply invocation_later|]. simpl.
      pose proof (lookup_lt_Some _ _ _ Hf).
      rewrite scan_app, Hs. simpl.
      rewrite bool_decide_eq_true_2 by done.
      rewrite bool_decide_eq_true_2 by done.
      rewrite list_lookup_insert_ne by done.
      rewrite list_lookup_insert_eq by done.
      rewrite length_app. simpl. repeat split; auto. lia. }
  exists h'. rewrite (effect_callback_invocation _ _ _ _ _ Hi). simpl.
  pose proof (user_ops_keeps (effect (VSignal h') w1).1 w1) as Hk.
  split.
  - apply (scan_keeps _ _ w1 _ []); [by rewrite app_nil_r|].
    replace (emit [] w1) with w1; [done|].
    destruct w1; unfold emit; simpl; by rewrite app_nil_r.
  - intros d Hd. eapply keeps_live_ok; [exact Hk|].
    repeat split; auto. exists d. split; [done|].
    destruct (effect _ _).2 as [[f|v]|e]; simpl in Hd; by inversion Hd.
Qed.

(** Calling the cleanup of the active run. *)
Lemma cleanup_inv hk w h :
  scan PInit (log w) = Some (PActive h) → live_ok hk w h →
  scan PInit (log (run_cleanup hk w).2) = Some (PIdle h)
  ∧ refs (run_cleanup hk w).2 = refs w
  ∧ length (heap (run_cleanup hk w).2) = length (heap w).
Proof.
  intros Hs (Hne & Hf & Hc & Hh & (d & Hd & Hdc)).
  unfold run_cleanup. rewrite Hd.
  destruct (run_destroy_shape d w h Hdc) as (e & He & Hk & _).
  split.
  - eapply scan_keeps; [|exact Hk].
    rewrite scan_app, Hs. simpl. by rewrite (next_teardown _ _ He).
  - destruct Hk as (Ha & Hr & Hl & _). simpl in *. by split.
Qed.

(** Every step keeps the order, and the instance and the log agree. *)
Lemma step_inv a i w p :
  scan PInit (log w) = Some p → agrees i w p →
  ∃ p', scan PInit (log (step a i w).2) = Some p'
        ∧ ∀ i', (step a i w).1 = Ok i' → agrees i' (step a i w).2 p'.
Proof.
  intros Hs Hag. destruct a as [effect deps| |ops].
  - (* a render *)
    destruct i as [|hk|].
    + simpl in Hag. subst p. rewrite step_render_fresh. simpl.
      set (hk := mkHooks _ _ _ _).
      pose proof (render_first effect deps w) as Hr.
      set (w1 := (useAbortableEffect effect deps None w).2).
      assert (Hw1 : w1 = _) by (unfold w1; rewrite Hr; reflexivity).
      destruct (activate_inv hk effect w1 (PReady (length (heap w)))) as (h' & Hs' & Hl').
      * simpl. lia.
      * rewrite Hw1. simpl. rewrite scan_app, Hs. done.
      * left. exists (length (heap w)). rewrite Hw1. simpl.
        split; [done|]. split.
        { rewrite lookup_app_r by lia. by rewrite Nat.sub_diag. }
        split.
        { rewrite lookup_app_r by lia.
          by replace (S (length (refs w)) - length (refs w)) with 1 by lia. }
        rewrite length_app. simpl. lia.
      * destruct (effect_callback hk effect w1) as [[d|e] w2] eqn:Hcb; simpl in *.
        -- exists (PActive h'). split; [done|]. intros i' [= <-]. simpl.
           exists h'. split; [done|]. by apply Hl'.
        -- exists (PActive h'). split; [done|]. intros i'. discriminate.
    + destruct Hag as (h & -> & Hlive).
      rewrite (step_render_live _ _ _ _ (live_hooks_ok _ _ _ Hlive)). cbv zeta.
      destruct (has_effect (Some hk) deps).
      * destruct (cleanup_inv hk w h Hs Hlive) as (Hs1 & Hr1 & Hl1).
        destruct (run_cleanup hk w) as [[[]|e] w1]; simpl in *.
        -- set (hk' := mkHooks _ _ _ _).
           destruct Hlive as (Hne & Hf & Hc & Hh & _).
           destruct (activate_inv hk' effect w1 (PIdle h)) as (h' & Hs' & Hl'); auto.
           { right. exists h. rewrite Hr1, Hl1.
             repeat split; auto. by eapply lookup_lt_Some. }
           destruct (effect_callback hk' effect w1) as [[d|e] w2]; simpl in *.
           ++ exists (PActive h'). split; [done|]. intros i' [= <-].
              exists h'. split; [done|]. by apply Hl'.
           ++ exists (PActive h'). split; [done|]. intros i'. discriminate.
        -- exists (PIdle h). split; [done|]. intros i'. discriminate.
      * simpl. exists (PActive h). split; [done|]. intros i' [= <-].
        exists h. split; [done|].
        destruct Hlive as (Hne & Hf & Hc & Hh & Hd). repeat split; auto.
    + simpl. exists p. split; [done|]. by intros i' [= <-].
  - (* the instance is destroyed *)
    destruct i as [|hk|]; simpl.
    + exists p. split; [done|]. by intros i' [= <-].
    + destruct Hag as (h & -> & Hlive).
      destruct (cleanup_inv hk w h Hs Hlive) as (Hs1 & Hr1 & Hl1).
      unfold bind. destruct (run_cleanup hk w) as [[[]|e] w1]; simpl in *.
      * exists (PIdle h). split; [done|]. intros i' [= <-]. simpl.
        exists h. split; [done|]. rewrite Hl1. by destruct Hlive as (_ & _ & _ & ? & _).
      * exists (PIdle h). split; [done|]. intros i'. discriminate.
    + exists p. split; [done|]. by intros i' [= <-].
  - (* code of the caller *)
    unfold step, bind, modify, ret. simpl.
    pose proof (user_ops_keeps ops w) as Hk.
    exists p. split.
    + apply (scan_keeps _ _ w _ []); [by rewrite app_nil_r|].
      replace (emit [] w) with w; [done|].
      destruct w; unfold emit; simpl; by rewrite app_nil_r.
    + intros i' [= <-]. destruct i as [|hk|]; simpl in *; auto.
      * destruct Hag as (h & -> & Hlive). exists h. split; [done|].
        by eapply keeps_live_ok.
      * destruct Hag as (h & -> & Hh). exists h. split; [done|].
        destruct Hk as (_ & _ & -> & _). done.
Qed.
Lemma run_inv acts i w p :
  scan PInit (log w) = Some p → agrees i w p →
  ∃ p', scan PInit (log (run acts i w).2) = Some p'
        ∧ ∀ i', (run acts i w).1 = Ok i' → agrees i' (run acts i w).2 p'.
Proof.
  revert i w p. induction acts as [|a acts IH]; intros i w p Hs Hag; simpl.
  - exists p. split; [done|]. by intros i' [= <-].
  - destruct (step_inv a i w p Hs Hag) as (p1 & Hs1 & Hag1).
    unfold bind. destruct (step a i w) as [[i1|e] w1]; simpl in *.
    + apply (IH i1 w1 p1); auto.
    + exists p1. split; [done|]. intros i'. discriminate.
Qed.

Lemma count_app f evs1 evs2 : count f (evs1 ++ evs2) = count f evs1 + count f evs2.
Proof. unfold count. by rewrite filter_app, length_app. Qed.

Lemma count_one f e : count f [e] = if f e then 1 else 0.
Proof.
  unfold count. rewrite filter_cons, filter_nil.
  destruct (f e); by case_decide.
Qed.

(** What an accepted log says about each handle: at most one run worked
    with it, and that run was torn down once, unless it is the active
    one. *)
Lemma scan_counts evs p :
  scan PInit evs = Some p →
  ∀ h, activations h evs ≤ 1
       ∧ teardowns h evs + is_active p h = activations h evs
       ∧ (beyond p h → activations h evs = 0).
Proof.
  revert p. induction evs as [|e evs IH] using rev_ind; intros p.
  - intros [= <-] h. cbn. repeat split; lia.
  - rewrite scan_app. destruct (scan PInit evs) as [q|] eqn:Hq; [|done].
    simpl. destruct (next q e) as [p'|] eqn:Hn; [|done]. intros [= ->] h.
    destruct (IH q eq_refl h) as (H1 & H2 & H3).
    unfold activations, teardowns in *. rewrite !count_app, !count_one.
    destruct e as [k|v|v|who k|k l]; destruct q as [|j|j|j]; simpl in Hn;
      try discriminate;
      try (destruct v as [| |k|k]; try discriminate);
      try (destruct who; try discriminate);
      repeat (case_bool_decide; try discriminate);
      simplify_eq; simpl in *;
      repeat (case_bool_decide; try discriminate); simplify_eq;
      try (rewrite H3 in * by (simpl; lia));
      (split; [lia|split; [lia|]]);
      intros; try lia; try (apply H3; simpl; lia).
Qed.

Lemma scan_split p evs1 e evs2 r :
  scan p (evs1 ++ e :: evs2) = Some r →
  ∃ q q', scan p evs1 = Some q ∧ next q e = Some q'.
Proof.
  rewrite scan_app. destruct (scan p evs1) as [q|]; [|done]. simpl.
  destruct (next q e) as [q'|] eqn:Hn; [|done]. eauto.
Qed.
End order.

(** ** Every computation is a sequence of elementary changes *)

Section tracking.
Implicit Types (w : World) (h : Handle) (hk : Hooks).

Lemma tracked_ret {A} (a : A) : tracked (ret a).
Proof. intros w. apply rtc_refl. Qed.

Lemma tracked_throw {A} e : tracked (@throw A e).
Proof. intros w. apply rtc_refl. Qed.

Lemma tracked_bind {A B} (m : M A) (k : A → M B) :
  tracked m → (∀ a, tracked (k a)) → tracked (bind m k).
Proof.
  intros Hm Hk w. unfold bind. specialize (Hm w).
  destruct (m w) as [[a|e] w1]; simpl in *; [|done].
  etrans; [exact Hm|apply Hk].
Qed.

Lemma tracked_modify (f : World → World) :
  (∀ w, rtc touch w (f w)) → tracked (modify f).
Proof. intros Hf w. apply Hf. Qed.

Lemma tracked_create : tracked createAbortController.
Proof. intros w. apply rtc_once, touch_create. Qed.

Lemma tracked_get r : tracked (get_current r).
Proof. intros w. apply rtc_refl. Qed.

Lemma tracked_set r v : tracked (set_current r v).
Proof. intros w. apply rtc_once, touch_refs. Qed.

Lemma tracked_new_ref v : tracked (new_ref v).
Proof. intros w. apply rtc_once, touch_refs. Qed.

Lemma user_ops_touch ops w : rtc touch w (user_ops ops w).
Proof.
  unfold user_ops. revert w. induction ops as [|op ops IH]; intros w; simpl.
  - apply rtc_refl.
  - etrans; [|apply IH].
    destruct op as [h|r|h l|h l]; simpl.
    + apply rtc_once, touch_abort.
    + destruct (refs w !! r) as [[| | h|]|]; try apply rtc_refl.
      apply rtc_once, touch_abort.
    + apply rtc_once, touch_listen.
    + apply rtc_once, touch_unlisten.
Qed.

Lemma tracked_call {A} (f : UserFn A) arg : tracked (call_user f arg).
Proof.
  intros w. unfold call_user. destruct (f arg w) as [ops r]. simpl.
  apply user_ops_touch.
Qed.

Lemma tracked_useRef memo init : tracked (useRef memo init).
Proof. destruct memo; [apply tracked_ret|apply tracked_new_ref]. Qed.

Lemma tracked_get_signal v : tracked (get_signal v).
Proof. destruct v as [[]| | |]; first [apply tracked_ret|apply tracked_throw]. Qed.

Lemma tracked_method_abort who v : tracked (method_abort who v).
Proof.
  destruct v as [| |h|]; try apply tracked_throw.
  apply tracked_modify. intros w. apply rtc_once, touch_abort.
Qed.

Lemma tracked_render effect deps memo :
  tracked (useAbortableEffect effect deps memo).
Proof.
  unfold useAbortableEffect.
  apply tracked_bind; [apply tracked_useRef|intros fr].
  apply tracked_bind; [apply tracked_useRef|intros cr].
  apply tracked_bind; [apply tracked_get|intros cur].
  apply tracked_bind; [|intros; apply tracked_ret].
  destruct (js_not cur); [|apply tracked_ret].
  apply tracked_bind; [apply tracked_create|intros; apply tracked_set].
Qed.

Lemma tracked_select hk : tracked (select_controller hk).
Proof.
  unfold select_controller.
  apply tracked_bind; [apply tracked_get|intros fr].
  apply tracked_bind; [|intros; apply tracked_get].
  destruct (strict_equals fr js_false); [|apply tracked_set].
  apply tracked_bind; [apply tracked_create|intros; apply tracked_set].
Qed.

Lemma tracked_callback hk effect : tracked (effect_callback hk effect).
Proof.
  unfold effect_callback, invoke_effect.
  apply tracked_bind; [apply tracked_select|intros c].
  apply tracked_bind; [apply tracked_get_signal|intros s].
  apply tracked_bind.
  { apply tracked_modify. intros w. apply rtc_once, touch_effect. }
  intros _. apply tracked_bind; [apply tracked_call|].
  intros [f|v]; apply tracked_ret.
Qed.

Lemma tracked_destroy d : tracked (run_destroy d).
Proof.
  destruct d as [f c|c]; simpl; [|apply tracked_method_abort].
  apply tracked_bind; [|intros; apply tracked_call].
  apply tracked_modify. intros w. apply rtc_once, touch_cleanup.
Qed.

Lemma tracked_cleanup hk : tracked (run_cleanup hk).
Proof.
  unfold run_cleanup. destruct (effect_destroy hk);
    [apply tracked_destroy|apply tracked_ret].
Qed.

Lemma tracked_commit r : tracked (commit r).
Proof.
  unfold commit. destruct (pending r); [|apply tracked_ret].
  apply tracked_bind; [apply tracked_cleanup|intros _].
  apply tracked_bind; [apply tracked_callback|intros; apply tracked_ret].
Qed.

Lemma tracked_step a i : tracked (step a i).
Proof.
  destruct a as [effect deps| |ops], i as [|hk|]; simpl;
    try apply tracked_ret.
  - apply tracked_bind; [apply tracked_render|intros r].
    apply tracked_bind; [apply tracked_commit|intros; apply tracked_ret].
  - apply tracked_bind; [apply tracked_render|intros r].
    apply tracked_bind; [apply tracked_commit|intros; apply tracked_ret].
  - apply tracked_bind; [apply tracked_cleanup|intros; apply tracked_ret].
  - apply tracked_bind; [|intros; apply tracked_ret].
    apply tracked_modify, user_ops_touch.
  - apply tracked_bind; [|intros; apply tracked_ret].
    apply tracked_modify, user_ops_touch.
  - apply tracked_bind; [|intros; apply tracked_ret].
    apply tracked_modify, user_ops_touch.
Qed.

Lemma tracked_run acts i : tracked (run acts i).
Proof.
  revert i. induction acts as [|a acts IH]; intros i; simpl.
  - apply tracked_ret.
  - apply tracked_bind; [apply tracked_step|intros; apply IH].
Qed.
End tracking.

(** ** What elementary changes keep *)

Section invariants.
Implicit Types (w : World) (h k : Handle) (c : Controller).

Lemma keeps_aborted w w' h :
  keeps w w' → signal_aborted h w = true → signal_aborted h w' = true.
Proof.
  intros (_ & _ & _ & _ & Hk). unfold signal_aborted.
  destruct (heap w !! h) as [c|] eqn:Hc; [|done].
  destruct (Hk h c Hc) as (c' & -> & _ & Hab & _). done.
Qed.

Lemma touch_env w w' :
  touch w w' → has_AbortController w' = has_AbortController w.
Proof.
  destruct 1 as [v w|v w|who h w|h l w|h l w|w|rs w]; try done.
  - unfold call_abort.
    by destruct (abort_object_keeps h (emit [EvAbortCall who h] w)) as (-> & _).
  - by destruct (add_listener_keeps h l w) as (-> & _).
  - by destruct (remove_listener_keeps h l w) as (-> & _).
Qed.

(** [aborted] never goes back to [false]. *)
Lemma touch_aborted w w' h :
  touch w w' → signal_aborted h w = true → signal_aborted h w' = true.
Proof.
  destruct 1 as [v w|v w|who k w|k l w|k l w|w|rs w]; try done.
  - apply (keeps_aborted (emit [EvAbortCall who k] w)), abort_object_keeps.
  - apply keeps_aborted, add_listener_keeps.
  - apply keeps_aborted, remove_listener_keeps.
  - unfold signal_aborted. simpl.
    destruct (heap w !! h) as [c|] eqn:Hc; [|done].
    by rewrite (lookup_app_l_Some _ _ _ _ Hc).
Qed.

Lemma rtc_touch_aborted w w' h :
  rtc touch w w' → signal_aborted h w = true → signal_aborted h w' = true.
Proof. induction 1; eauto using touch_aborted. Qed.

Lemma rtc_touch_env w w' :
  rtc touch w w' → has_AbortController w' = has_AbortController w.
Proof.
  induction 1 as [|w1 w2 w3 H12 _ IH]; [done|].
  rewrite IH. by apply touch_env.
Qed.

Lemma native_update w h k c' :
  h < length (heap w) →
  (k = h → kind c' = Native ∧ NoDup (listeners c')) →
  native_at k w → native_at k (set_heap (<[h := c']> (heap w)) w).
Proof.
  intros Hh Hk' (c0 & Hc0 & Hk0 & Hnd0). unfold native_at. simpl.
  destruct (decide (k = h)) as [->|Hne].
  - exists c'. rewrite list_lookup_insert_eq by done.
    destruct Hk'; done.
  - exists c0. by rewrite list_lookup_insert_ne.
Qed.

Lemma abort_object_native h k w : native_at k w → native_at k (abort_object h w).
Proof.
  intros Hn. unfold abort_object.
  destruct (heap w !! h) as [c|] eqn:Hh; [|done].
  destruct (kind c) eqn:Hk; [|done].
  destruct (aborted c); [done|].
  assert (native_at k (set_heap (<[h := mkController Native true (listeners c)]> (heap w)) w))
    as (c1 & ? & ? & ?); [|by exists c1].
  apply native_update; [by eapply lookup_lt_Some| |done].
  intros ->. destruct Hn as (c0 & Hc0 & _ & Hnd0). by simplify_eq.
Qed.

Lemma add_listener_native h l k w : native_at k w → native_at k (add_listener h l w).
Proof.
  intros Hn. unfold add_listener.
  destruct (heap w !! h) as [c|] eqn:Hh; [|done].
  destruct (kind c) eqn:Hk; [|done].
  case_bool_decide as Hl; [done|].
  apply native_update; [by eapply lookup_lt_Some| |done].
  intros ->. destruct Hn as (c0 & Hc0 & _ & Hnd0). simplify_eq. simpl.
  split; [done|]. apply NoDup_app. split; [done|]. split.
  - intros x Hx ->%list_elem_of_singleton. done.
  - apply NoDup_singleton.
Qed.

Lemma remove_listener_native h l k w :
  native_at k w → native_at k (remove_listener h l w).
Proof.
  intros Hn. unfold remove_listener.
  destruct (heap w !! h) as [c|] eqn:Hh; [|done].
  destruct (kind c) eqn:Hk; [|done].
  apply native_update; [by eapply lookup_lt_Some| |done].
  intros ->. destruct Hn as (c0 & Hc0 & _ & Hnd0). simplify_eq. simpl.
  split; [done|]. by apply NoDup_filter.
Qed.

(** The host's controller stays the host's, each listener registered
    once. *)
Lemma touch_native w w' k : touch w w' → native_at k w → native_at k w'.
Proof.
  destruct 1 as [v w|v w|who h w|h l w|h l w|w|rs w]; try done.
  - intros Hn. apply abort_object_native. done.
  - apply add_listener_native.
  - apply remove_listener_native.
  - intros (c & Hc & ? & ?). exists c. simpl.
    by rewrite (lookup_app_l_Some _ _ _ _ Hc).
Qed.

Lemma rtc_touch_native w w' k : rtc touch w w' → native_at k w → native_at k w'.
Proof. induction 1; eauto using touch_native. Qed.

Lemma mock_lookup w h c : all_mock w → heap w !! h = Some c → kind c = Mock.
Proof.
  intros [_ Hf] Hc. rewrite Forall_forall in Hf.
  rewrite (Hf c); [done|]. apply list_elem_of_lookup. eauto.
Qed.

Lemma abort_object_mock h w : all_mock w → abort_object h w = w.
Proof.
  intros Hm. unfold abort_object.
  destruct (heap w !! h) as [c|] eqn:Hh; [|done].
  by rewrite (mock_lookup _ _ _ Hm Hh).
Qed.

Lemma add_listener_mock h l w : all_mock w → add_listener h l w = w.
Proof.
  intros Hm. unfold add_listener.
  destruct (heap w !! h) as [c|] eqn:Hh; [|done].
  by rewrite (mock_lookup _ _ _ Hm Hh).
Qed.

Lemma remove_listener_mock h l w : all_mock w → remove_listener h l w = w.
Proof.
  intros Hm. unfold remove_listener.
  destruct (heap w !! h) as [c|] eqn:Hh; [|done].
  by rewrite (mock_lookup _ _ _ Hm Hh).
Qed.

Lemma notifications_snoc h l evs e :
  (∀ k m, e ≠ EvNotify k m) →
  notifications h l (evs ++ [e]) = notifications h l evs.
Proof.
  intros He. unfold notifications. rewrite count_app, count_one.
  destruct e; simpl; try lia. by destruct (He h0 l0).
Qed.

(** Without the host's primitive nothing but mock objects is ever in the
    store, and no listener is ever notified. *)
Lemma touch_mock w w' :
  touch w w' → all_mock w →
  all_mock w' ∧ ∀ h l, notifications h l (log w') = notifications h l (log w).
Proof.
  destruct 1 as [v w|v w|who h w|h l w|h l w|w|rs w]; intros Hm.
  - split; [done|]. intros. by apply notifications_snoc.
  - split; [done|]. intros. by apply notifications_snoc.
  - unfold call_abort. rewrite abort_object_mock by done.
    split; [done|]. intros. by apply notifications_snoc.
  - by rewrite add_listener_mock.
  - by rewrite remove_listener_mock.
  - destruct Hm as [Ha Hf]. simpl. rewrite Ha. split.
    + split; [done|]. simpl. apply Forall_app. split; [done|].
      by apply Forall_singleton.
    + intros. by apply notifications_snoc.
  - done.
Qed.

(** [abort()] on the host's controller sets [aborted]. *)
Lemma call_abort_sets who h w c :
  heap w !! h = Some c → kind c = Native →
  signal_aborted h (call_abort who h w) = true.
Proof.
  intros Hh Hk. unfold call_abort, abort_object, signal_aborted. simpl.
  rewrite Hh, Hk. destruct (aborted c) eqn:Hac; simpl.
  - by rewrite Hh.
  - by rewrite list_lookup_insert_eq by (by eapply lookup_lt_Some).
Qed.

Lemma rtc_touch_mock w w' :
  rtc touch w w' → all_mock w →
  all_mock w' ∧ ∀ h l, notifications h l (log w') = notifications h l (log w).
Proof.
  induction 1 as [|w1 w2 w3 H12 _ IH]; [done|]. intros Hm.
  destruct (touch_mock _ _ H12 Hm) as [Hm2 Hn2].
  destruct (IH Hm2) as [Hm3 Hn3]. split; [done|].
  intros. by rewrite Hn3, Hn2.
Qed.
End invariants.

(** ** The cleanup a run registers *)

Section teardown.
Implicit Types (w : World) (h : Handle) (hk : Hooks) (effect : EffectFn).

Lemma effect_callback_result hk effect w s w1 :
  hooks_ok hk w → invocation hk w = (Ok s, w1) →
  ∃ h, s = VSignal h
       ∧ h < length (heap w1)
       ∧ refs w1 !! controllerRef hk = Some (VController h)
       ∧ effect_callback hk effect w =
           (match (effect s w1).2 with
            | Ok v => Ok (cleanup_for (VController h) v)
            | Throw e => Throw e
            end, user_ops (effect s w1).1 w1).
Proof.
  intros Hok Hi. destruct (invocation_ok hk w Hok) as (h & w1' & Hi' & Hc & _ & Hh & _).
  rewrite Hi in Hi'. injection Hi' as -> ->. exists h.
  repeat split; auto. by apply effect_callback_invocation.
Qed.

Lemma step_unmount hk w :
  step Unmount (Live hk) w =
    match run_cleanup hk w with
    | (Ok _, w1) => (Ok Dead, w1)
    | (Throw e, w1) => (Throw e, w1)
    end.
Proof.
  unfold step, bind. by destruct (run_cleanup hk w) as [[[]|e] w1].
Qed.

Lemma run_destroy_default h w :
  run_destroy (DestroyDefault (VController h)) w = (Ok (), call_abort ByBinder h w).
Proof. done. Qed.

Lemma run_destroy_custom f c w :
  run_destroy (DestroyCustom f c) w =
    ((f c (emit [EvCustomCleanup c] w)).2,
     user_ops (f c (emit [EvCustomCleanup c] w)).1 (emit [EvCustomCleanup c] w)).
Proof.
  unfold run_destroy, bind, modify, call_user.
  destruct (f c _) as [ops [[]|e]]; done.
Qed.

Lemma call_abort_log who h w :
  ∃ evs, log (call_abort who h w) = log w ++ EvAbortCall who h :: evs
         ∧ Forall (λ e, is_user_event e = true) evs.
Proof.
  unfold call_abort.
  destruct (abort_object_keeps h (emit [EvAbortCall who h] w))
    as (_ & _ & _ & (evs & Hl & Hf) & _).
  exists evs. split; [|done]. rewrite Hl. simpl. by rewrite <- app_assoc.
Qed.

Lemma user_ops_log ops w :
  ∃ evs, log (user_ops ops w) = log w ++ evs
         ∧ Forall (λ e, is_user_event e = true) evs.
Proof. by destruct (user_ops_keeps ops w) as (_ & _ & _ & ? & _). Qed.

Lemma user_events_no_effect evs :
  Forall (λ e, is_user_event e = true) evs → count is_effect_event evs = 0.
Proof.
  induction 1 as [|e evs He _ IH]; [done|].
  change (e :: evs) with ([e] ++ evs). rewrite count_app, count_one, IH.
  by destruct e.
Qed.
End teardown.

(** C1.  A run whose [effect] returns something that is not a function
    (nothing, say) registers the cleanup that calls [abort()] on the
    controller of this very run: the one whose signal [effect] was given.
    On the host's controller that call sets [aborted].  The host calls the
    cleanup when the next run is due, before the callback runs again, and
    when the component instance is destroyed. *)
Theorem default_teardown_aborts hk effect w s w1 v :
  hooks_ok hk w →
  invocation hk w = (Ok s, w1) →
  (effect s w1).2 = Ok (RetOther v) →
  ∃ h, s = VSignal h
    ∧ (effect_callback hk effect w).1 = Ok (DestroyDefault (VController h))
    ∧ (∀ w2, run_destroy (DestroyDefault (VController h)) w2
             = (Ok (), call_abort ByBinder h w2))
    ∧ (∀ w2, ∃ evs, log (call_abort ByBinder h w2)
                    = log w2 ++ EvAbortCall ByBinder h :: evs
                    ∧ Forall (λ e, is_user_event e = true) evs)
    ∧ (∀ w2 c, heap w2 !! h = Some c → kind c = Native →
         signal_aborted h (call_abort ByBinder h w2) = true)
    ∧ (∀ hk2 w2 effect2 deps2,
         hooks_ok hk2 w2 →
         effect_destroy hk2 = Some (DestroyDefault (VController h)) →
         has_effect (Some hk2) deps2 = true →
         step (Render effect2 deps2) (Live hk2) w2 =
           let hk3 := mkHooks (firstRun hk2) (controllerRef hk2) deps2 None in
           match effect_callback hk3 effect2 (call_abort ByBinder h w2) with
           | (Ok d, w3) => (Ok (Live (set_destroy (Some d) hk3)), w3)
           | (Throw e, w3) => (Throw e, w3)
           end)
    ∧ (∀ hk2 w2,
         effect_destroy hk2 = Some (DestroyDefault (VController h)) →
         step Unmount (Live hk2) w2 = (Ok Dead, call_abort ByBinder h w2)).
Proof.
  intros Hok Hi Hret.
  destruct (effect_callback_result hk effect w s w1 Hok Hi) as (h & -> & _ & _ & Hcb).
  exists h. split; [done|]. split; [by rewrite Hcb, Hret|].
  split; [done|]. split; [intros; apply call_abort_log|].
  split; [intros w2 c; apply call_abort_sets|]. split.
  - intros hk2 w2 effect2 deps2 Hok2 Hd Hhas.
    rewrite (step_render_live _ _ _ _ Hok2). cbv zeta. rewrite Hhas.
    unfold run_cleanup. rewrite Hd. by rewrite run_destroy_default.
  - intros hk2 w2 Hd. rewrite step_unmount. unfold run_cleanup. by rewrite Hd.
Qed.

(** C2.  A run whose [effect] returns a function registers exactly that
    function.  When the host calls the cleanup, the function is called once,
    with the controller of this very run as its argument; apart from that
    call the hook does nothing: every further event is the caller's own
    doing, so the default [abort()] of the hook does not run.  The host calls
    the cleanup when the next run is due and when the instance is
    destroyed. *)
Theorem custom_cleanup_replaces_default hk effect w s w1 f :
  hooks_ok hk w →
  invocation hk w = (Ok s, w1) →
  (effect s w1).2 = Ok (RetFunction f) →
  ∃ h, s = VSignal h
    ∧ (effect_callback hk effect w).1 = Ok (DestroyCustom f (VController h))
    ∧ (∀ w2,
         let w3 := emit [EvCustomCleanup (VController h)] w2 in
         run_destroy (DestroyCustom f (VController h)) w2
           = ((f (VController h) w3).2, user_ops (f (VController h) w3).1 w3)
         ∧ ∃ evs,
             log (run_destroy (DestroyCustom f (VController h)) w2).2
               = log w2 ++ EvCustomCleanup (VController h) :: evs
             ∧ Forall (λ e, is_user_event e = true) evs)
    ∧ (∀ hk2 w2 effect2 deps2,
         hooks_ok hk2 w2 →
         effect_destroy hk2 = Some (DestroyCustom f (VController h)) →
         has_effect (Some hk2) deps2 = true →
         step (Render effect2 deps2) (Live hk2) w2 =
           let hk3 := mkHooks (firstRun hk2) (controllerRef hk2) deps2 None in
           match run_destroy (DestroyCustom f (VController h)) w2 with
           | (Ok _, w3) =>
               match effect_callback hk3 effect2 w3 with
               | (Ok d, w4) => (Ok (Live (set_destroy (Some d) hk3)), w4)
               | (Throw e, w4) => (Throw e, w4)
               end
           | (Throw e, w3) => (Throw e, w3)
           end)
    ∧ (∀ hk2 w2,
         effect_destroy hk2 = Some (DestroyCustom f (VController h)) →
         step Unmount (Live hk2) w2 =
           match run_destroy (DestroyCustom f (VController h)) w2 with
           | (Ok _, w3) => (Ok Dead, w3)
           | (Throw e, w3) => (Throw e, w3)
           end).
Proof.
  intros Hok Hi Hret.
  destruct (effect_callback_result hk effect w s w1 Hok Hi) as (h & -> & _ & _ & Hcb).
  exists h. split; [done|]. split; [by rewrite Hcb, Hret|]. split; [|split].
  - intros w2 w3. split; [apply run_destroy_custom|].
    rewrite run_destroy_custom. simpl. fold w3.
    destruct (user_ops_log (f (VController h) w3).1 w3) as (evs & Hl & Hf).
    exists evs. split; [|done]. rewrite Hl. unfold w3. simpl.
    by rewrite <- app_assoc.
  - intros hk2 w2 effect2 deps2 Hok2 Hd Hhas.
    rewrite (step_render_live _ _ _ _ Hok2). cbv zeta. rewrite Hhas.
    unfold run_cleanup. by rewrite Hd.
  - intros hk2 w2 Hd. rewrite step_unmount. unfold run_cleanup. by rewrite Hd.
Qed.

Lemma sample_hooks_ok : hooks_ok sample_hooks sample_world.
Proof.
  split; [simpl; lia|]. split.
  - exists true. reflexivity.
  - exists 0. split; [reflexivity|simpl; lia].
Defined.

Lemma default_teardown_aborts_witness :
  hooks_ok sample_hooks sample_world
  ∧ (effect_callback sample_hooks effect_nothing sample_world).1
    = Ok (DestroyDefault (VController 0)).
Proof.
  split; [exact sample_hooks_ok|].
  destruct (default_teardown_aborts sample_hooks effect_nothing sample_world
              (VSignal 0) (invocation sample_hooks sample_world).2 undefined
              sample_hooks_ok eq_refl eq_refl) as (h & Hs & Hd & _).
  injection Hs as <-. exact Hd.
Defined.

Lemma custom_cleanup_replaces_default_witness :
  hooks_ok sample_hooks sample_world
  ∧ (effect_callback sample_hooks effect_custom sample_world).1
    = Ok (DestroyCustom cleanup_abort (VController 0)).
Proof.
  split; [exact sample_hooks_ok|].
  destruct (custom_cleanup_replaces_default sample_hooks effect_custom sample_world
              (VSignal 0) (invocation sample_hooks sample_world).2 cleanup_abort
              sample_hooks_ok eq_refl eq_refl) as (h & Hs & Hd & _).
  injection Hs as <-. exact Hd.
Defined.

(** C3.  In every run the callback calls [effect] with the signal of the
    controller that is in the ref object at that moment, never with the
    controller.  The first render makes the first controller and leaves the
    flag set; the run that finds the flag set makes no controller and uses
    that one; every run that finds the flag cleared makes a new controller
    and stores it in the ref object before it calls [effect]. *)
Theorem effect_receives_signal hk effect w :
  hooks_ok hk w →
  (∃ h w1,
     invocation hk w = (Ok (VSignal h), w1)
     ∧ effect_callback hk effect w =
         (match (effect (VSignal h) w1).2 with
          | Ok v => Ok (cleanup_for (VController h) v)
          | Throw e => Throw e
          end, user_ops (effect (VSignal h) w1).1 w1)
     ∧ refs w1 !! controllerRef hk = Some (VController h)
     ∧ refs w1 !! firstRun hk = Some js_false
     ∧ (refs w !! firstRun hk = Some js_true →
          refs w !! controllerRef hk = Some (VController h)
          ∧ heap w1 = heap w
          ∧ log w1 = log w ++ [EvEffect (VSignal h)])
     ∧ (refs w !! firstRun hk = Some js_false →
          h = length (heap w)
          ∧ heap w !! h = None
          ∧ heap w1 = heap w ++ [if has_AbortController w then new_AbortController
                                 else mockAbortController]
          ∧ log w1 = log w ++ [EvCreate h; EvEffect (VSignal h)]))
  ∧ (∀ effect0 deps0 w0, ∃ r,
       (useAbortableEffect effect0 deps0 None w0).1 = Ok r
       ∧ pending r = Some effect0
       ∧ hooks_ok (hooks r) (useAbortableEffect effect0 deps0 None w0).2
       ∧ refs (useAbortableEffect effect0 deps0 None w0).2 !! firstRun (hooks r)
         = Some js_true
       ∧ refs (useAbortableEffect effect0 deps0 None w0).2 !! controllerRef (hooks r)
         = Some (VController (length (heap w0)))).
Proof.
  intros Hok. split.
  - destruct Hok as (Hne & (b & Hf) & (h & Hc & Hh)).
    pose proof (lookup_lt_Some _ _ _ Hf) as Hlf.
    pose proof (lookup_lt_Some _ _ _ Hc) as Hlc.
    destruct b.
    + exists h. eexists.
      pose proof (invocation_first hk w h Hne Hf Hc) as Hi.
      split; [exact Hi|]. split; [by apply effect_callback_invocation|]. simpl.
      rewrite list_lookup_insert_ne by auto.
      rewrite list_lookup_insert_eq by auto.
      split; [done|]. split; [done|]. split; [by intros _|].
      intros Hf'. rewrite Hf in Hf'. discriminate.
    + exists (length (heap w)). eexists.
      pose proof (invocation_later hk w Hne Hf Hlc) as Hi.
      split; [exact Hi|]. split; [by apply effect_callback_invocation|]. simpl.
      rewrite list_lookup_insert_eq by auto.
      rewrite list_lookup_insert_ne by auto.
      split; [done|]. split; [done|]. split.
      * intros Hf'. rewrite Hf in Hf'. discriminate.
      * intros _. split; [done|]. split; [by apply lookup_ge_None_2|]. by split.
  - intros effect0 deps0 w0. rewrite render_first. eexists. simpl.
    split; [done|]. split; [done|].
    assert (Hfr : (refs w0 ++ [js_true; VController (length (heap w0))])
                    !! length (refs w0) = Some js_true).
    { rewrite lookup_app_r by lia. by rewrite Nat.sub_diag. }
    assert (Hcr : (refs w0 ++ [js_true; VController (length (heap w0))])
                    !! S (length (refs w0)) = Some (VController (length (heap w0)))).
    { rewrite lookup_app_r by lia.
      by replace (S (length (refs w0)) - length (refs w0)) with 1 by lia. }
    split; [|by split].
    split; [simpl; lia|]. split; simpl.
    + exists true. exact Hfr.
    + exists (length (heap w0)). split; [exact Hcr|].
      rewrite length_app. simpl. lia.
Qed.

Lemma effect_receives_signal_witness :
  hooks_ok sample_hooks sample_world
  ∧ ∃ h w1, invocation sample_hooks sample_world = (Ok (VSignal h), w1).
Proof.
  split; [exact sample_hooks_ok|].
  destruct (effect_receives_signal sample_hooks effect_nothing sample_world
              sample_hooks_ok) as [(h & w1 & Hi & _) _].
  exists h, w1. exact Hi.
Defined.

Lemma call_abort_set_refs who h rs w :
  call_abort who h (set_refs rs w) = set_refs rs (call_abort who h w).
Proof.
  unfold call_abort, abort_object. simpl.
  destruct (heap w !! h) as [c|]; [|done].
  destruct (kind c); [|done]. by destruct (aborted c).
Qed.

Lemma call_abort_other who h k w :
  k ≠ h → heap (call_abort who h w) !! k = heap w !! k.
Proof.
  intros Hne. unfold call_abort, abort_object. simpl.
  destruct (heap w !! h) as [c|]; [|done].
  destruct (kind c); [|done]. destruct (aborted c); [done|]. simpl.
  by rewrite list_lookup_insert_ne.
Qed.

(** C10.  A run of the callback that returns a cleanup has called
    [effect], once, with the signal of the controller that is in the ref
    object at that moment, and the cleanup it returns is made from what that
    call returned and from that very controller.  Whenever the cleanup is
    called later, in whatever store, it hands that controller to the
    caller's function or calls [abort()] on it.  It does not write the ref
    object; the default cleanup does not read it either (with another content
    of the ref objects it does the same) and changes no other controller. *)
Theorem teardown_holds_own_controller hk effect w d w' :
  hooks_ok hk w →
  effect_callback hk effect w = (Ok d, w') →
  ∃ h w1 v,
    invocation hk w = (Ok (VSignal h), w1)
    ∧ refs w1 !! controllerRef hk = Some (VController h)
    ∧ (∃ evs, log w1 = log w ++ evs ++ [EvEffect (VSignal h)]
              ∧ count is_effect_event evs = 0)
    ∧ effect (VSignal h) w1 = ((effect (VSignal h) w1).1, Ok v)
    ∧ w' = user_ops (effect (VSignal h) w1).1 w1
    ∧ (∃ evs evs', log w' = log w ++ evs ++ EvEffect (VSignal h) :: evs'
                   ∧ count is_effect_event (evs ++ evs') = 0)
    ∧ d = cleanup_for (VController h) v
    ∧ destroy_controller d = VController h
    ∧ ∀ w2,
        (∃ e evs, is_teardown h e = true
                  ∧ log (run_destroy d w2).2 = log w2 ++ e :: evs
                  ∧ Forall (λ e, is_user_event e = true) evs)
        ∧ refs (run_destroy d w2).2 = refs w2
        ∧ (∀ c, d = DestroyDefault c →
             (∀ rs, run_destroy d (set_refs rs w2)
                    = (Ok (), set_refs rs (call_abort ByBinder h w2)))
             ∧ (∀ k, k ≠ h → heap (run_destroy d w2).2 !! k = heap w2 !! k))
        ∧ (∀ f c, d = DestroyCustom f c →
             let w3 := emit [EvCustomCleanup (VController h)] w2 in
             run_destroy d w2
             = ((f (VController h) w3).2, user_ops (f (VController h) w3).1 w3)).
Proof.
  intros Hok Hcb.
  assert (∃ h w1, invocation hk w = (Ok (VSignal h), w1)
                  ∧ refs w1 !! controllerRef hk = Some (VController h)
                  ∧ ∃ evs, log w1 = log w ++ evs ++ [EvEffect (VSignal h)]
                           ∧ count is_effect_event evs = 0)
    as (h & w1 & Hi & Hc1 & Hlog).
  { destruct Hok as (Hne & (b & Hf) & (h & Hc & Hh)).
    pose proof (lookup_lt_Some _ _ _ Hf) as Hlf.
    pose proof (lookup_lt_Some _ _ _ Hc) as Hlc.
    destruct b.
    - exists h. eexists. split; [by apply invocation_first|]. simpl.
      rewrite list_lookup_insert_ne by auto. split; [done|]. by exists [].
    - exists (length (heap w)). eexists. split; [by apply invocation_later|]. simpl.
      rewrite list_lookup_insert_eq by auto. split; [done|].
      by exists [EvCreate (length (heap w))]. }
  rewrite (effect_callback_invocation _ _ _ _ _ Hi) in Hcb.
  destruct (effect (VSignal h) w1) as [ops [v|e]] eqn:He; simpl in Hcb;
    [|discriminate].
  injection Hcb as <- <-.
  exists h, w1, v. split; [done|]. split; [done|]. split; [done|].
  rewrite He. simpl. split; [done|]. split; [done|]. split.
  { destruct Hlog as (evs & Hl1 & Hc0).
    destruct (user_ops_log ops w1) as (evs' & Hl2 & Hu).
    exists evs, evs'. split.
    - rewrite Hl2, Hl1. by rewrite <- !app_assoc.
    - by rewrite count_app, Hc0, (user_events_no_effect _ Hu). }
  split; [done|].
  assert (Hd : destroy_controller (cleanup_for (VController h) v) = VController h)
    by (by destruct v).
  split; [done|]. intros w2.
  destruct (run_destroy_shape (cleanup_for (VController h) v) w2 h Hd)
    as (e & He' & Hk & Hdef & Hcus).
  destruct Hk as (_ & Hr & _ & (evs & Hl & Hu) & _).
  split; [|split; [done|split]].
  - exists e, evs. split; [done|]. split; [|done].
    rewrite Hl. simpl. by rewrite <- app_assoc.
  - intros c Hdc. rewrite Hdc in Hd |- *. simpl in Hd. subst c. split.
    + intros rs. rewrite run_destroy_default. by rewrite call_abort_set_refs.
    + intros k Hne. rewrite run_destroy_default. simpl. by apply call_abort_other.
  - intros f c Hdc. rewrite Hdc in Hd |- *. simpl in Hd. subst c.
    apply run_destroy_custom.
Qed.

Lemma teardown_holds_own_controller_witness :
  hooks_ok sample_hooks sample_world
  ∧ ∃ d, (effect_callback sample_hooks effect_custom sample_world).1 = Ok d
         ∧ destroy_controller d = VController 0.
Proof.
  split; [exact sample_hooks_ok|].
  exists (DestroyCustom cleanup_abort (VController 0)). split; [reflexivity|].
  destruct (teardown_holds_own_controller sample_hooks effect_custom sample_world
              (DestroyCustom cleanup_abort (VController 0))
              (effect_callback sample_hooks effect_custom sample_world).2
              sample_hooks_ok eq_refl)
    as (h & w1 & v & Hi & _ & _ & _ & _ & _ & _ & Hd & _).
  injection Hi as <- _. exact Hd.
Defined.

(** ** Exceptions *)

Section exceptions.
Implicit Types (w : World) (h : Handle) (hk : Hooks) (effect : EffectFn).

Lemma render_first_ok effect deps w :
  hooks_ok (mkHooks (length (refs w)) (S (length (refs w))) deps None)
    (useAbortableEffect effect deps None w).2.
Proof.
  rewrite render_first. split; [simpl; lia|]. split; simpl.
  - exists true. rewrite lookup_app_r by lia. by rewrite Nat.sub_diag.
  - exists (length (heap w)). split.
    + rewrite lookup_app_r by lia.
      by replace (S (length (refs w)) - length (refs w)) with 1 by lia.
    + rewrite length_app. simpl. lia.
Qed.

Lemma run_cleanup_frame hk w h :
  live_ok hk w h →
  refs (run_cleanup hk w).2 = refs w
  ∧ length (heap (run_cleanup hk w).2) = length (heap w).
Proof.
  intros (_ & _ & _ & _ & (d & Hd & Hdc)). unfold run_cleanup. rewrite Hd.
  destruct (run_destroy_shape d w h Hdc) as (e & _ & (_ & Hr & Hl & _) & _).
  done.
Qed.

Lemma callback_throw hk effect w e :
  hooks_ok hk w → (effect_callback hk effect w).1 = Throw e →
  ∃ s w1, invocation hk w = (Ok s, w1) ∧ (effect s w1).2 = Throw e.
Proof.
  intros Hok. destruct (invocation_ok hk w Hok) as (h & w1 & Hi & _).
  rewrite (effect_callback_invocation _ _ _ _ _ Hi). simpl. intros He.
  exists (VSignal h), w1. split; [done|].
  destruct (effect _ _).2; by simplify_eq.
Qed.

Lemma destroy_throw d w h e :
  destroy_controller d = VController h → (run_destroy d w).1 = Throw e →
  ∃ f, d = DestroyCustom f (VController h)
       ∧ (f (VController h) (emit [EvCustomCleanup (VController h)] w)).2 = Throw e.
Proof.
  destruct d as [f c|c]; intros Hd; cbn [destroy_controller] in Hd; subst c.
  - rewrite run_destroy_custom. cbn [fst]. eauto.
  - rewrite run_destroy_default. discriminate.
Qed.
End exceptions.

(** C9.  The hook catches nothing.  What [effect] throws comes out of the
    effect callback, what a cleanup function of the caller throws comes out
    of the cleanup, unchanged.  The hook throws nothing of its own: making a
    controller and the default cleanup always return, and whenever a step of
    an instance throws, a function of the caller threw that very value. *)
Theorem errors_propagate hk effect w :
  hooks_ok hk w →
  (∀ s w1 e, invocation hk w = (Ok s, w1) → (effect s w1).2 = Throw e →
     effect_callback hk effect w = (Throw e, user_ops (effect s w1).1 w1))
  ∧ (∀ f c w2 e,
       (f c (emit [EvCustomCleanup c] w2)).2 = Throw e →
       (run_destroy (DestroyCustom f c) w2).1 = Throw e)
  ∧ (∀ w2, (createAbortController w2).1 = Ok (length (heap w2)))
  ∧ (∀ h w2, (run_destroy (DestroyDefault (VController h)) w2).1 = Ok ())
  ∧ (∀ deps, ∃ r, (useAbortableEffect effect deps (Some hk) w).1 = Ok r)
  ∧ (∀ deps w0, ∃ r, (useAbortableEffect effect deps None w0).1 = Ok r)
  ∧ (∀ a i p w0 e,
       agrees i w0 p → (step a i w0).1 = Throw e →
       (∃ effect0 deps0 s w1, a = Render effect0 deps0 ∧ (effect0 s w1).2 = Throw e)
       ∨ (∃ hk0 f c w1, i = Live hk0 ∧ effect_destroy hk0 = Some (DestroyCustom f c)
                        ∧ (f c w1).2 = Throw e)).
Proof.
  intros Hok. split; [|split; [|split; [|split; [|split; [|split]]]]].
  - intros s w1 e Hi He.
    destruct (effect_callback_result hk effect w s w1 Hok Hi) as (h & -> & _ & _ & ->).
    by rewrite He.
  - intros f c w2 e He. by rewrite run_destroy_custom.
  - done.
  - done.
  - intros deps. rewrite (render_again _ _ _ _ Hok). eauto.
  - intros deps w0. rewrite render_first. eauto.
  - intros a i p w0 e Hag Hthrow.
    destruct a as [effect0 deps0| |ops].
    + destruct i as [|hk0|].
      * left. rewrite step_render_fresh in Hthrow. cbv zeta in Hthrow.
        pose proof (render_first_ok effect0 deps0 w0) as Hok0.
        destruct (effect_callback _ effect0 _) as [[d|e'] w2] eqn:Hcb;
          simpl in Hthrow; [discriminate|]. injection Hthrow as ->.
        destruct (callback_throw _ effect0 _ e Hok0) as (s & w1 & _ & He).
        { by rewrite Hcb. }
        by exists effect0, deps0, s, w1.
      * destruct Hag as (h & _ & Hlive).
        rewrite (step_render_live _ _ _ _ (live_hooks_ok _ _ _ Hlive)) in Hthrow.
        cbv zeta in Hthrow.
        destruct (has_effect (Some hk0) deps0); [|discriminate].
        destruct (run_cleanup_frame hk0 w0 h Hlive) as (Hr & Hl).
        pose proof Hlive as (Hne & Hf & Hc & Hh & (d0 & Hd0 & Hdc)).
        destruct (run_cleanup hk0 w0) as [[[]|e'] w1] eqn:Hcl; simpl in *.
        -- left.
           assert (Hok1 : hooks_ok (mkHooks (firstRun hk0) (controllerRef hk0) deps0 None) w1).
           { split; [done|]. simpl. rewrite Hr, Hl. split; [by exists false|eauto]. }
           destruct (effect_callback _ effect0 w1) as [[d|e'] w2] eqn:Hcb;
             simpl in Hthrow; [discriminate|]. injection Hthrow as ->.
           destruct (callback_throw _ effect0 _ e Hok1) as (s & w1' & _ & He).
           { by rewrite Hcb. }
           by exists effect0, deps0, s, w1'.
        -- right. injection Hthrow as ->.
           unfold run_cleanup in Hcl. rewrite Hd0 in Hcl.
           destruct (destroy_throw d0 w0 h e Hdc) as (f & -> & He).
           { by rewrite Hcl. }
           eauto 10.
      * discriminate.
    + destruct i as [|hk0|]; try discriminate.
      right. destruct Hag as (h & _ & Hlive).
      rewrite step_unmount in Hthrow.
      destruct Hlive as (Hne & Hf & Hc & Hh & (d0 & Hd0 & Hdc)).
      unfold run_cleanup in Hthrow. rewrite Hd0 in Hthrow.
      destruct (run_destroy d0 w0) as [[[]|e'] w1] eqn:Hcl; simpl in *;
        [discriminate|]. injection Hthrow as ->.
      destruct (destroy_throw d0 w0 h e Hdc) as (f & -> & He).
      { by rewrite Hcl. }
      eauto 10.
    + destruct i; discriminate.
Qed.

Lemma errors_propagate_witness :
  hooks_ok sample_hooks sample_world
  ∧ (effect_callback sample_hooks effect_throw sample_world).1
    = Throw (VPrim (PStr "boom")).
Proof.
  split; [exact sample_hooks_ok|].
  destruct (errors_propagate sample_hooks effect_throw sample_world sample_hooks_ok)
    as (Hthrow & _).
  rewrite (Hthrow (VSignal 0) (invocation sample_hooks sample_world).2
             (VPrim (PStr "boom")) eq_refl eq_refl).
  reflexivity.
Defined.

(** ** Whole lives of an instance *)

Section lives.
Implicit Types (w : World) (h : Handle) (hk : Hooks) (evs : list Event).

Lemma run_from_fresh acts w0 :
  log w0 = [] →
  ∃ p, scan PInit (log (run acts Fresh w0).2) = Some p
       ∧ ∀ i, (run acts Fresh w0).1 = Ok i → agrees i (run acts Fresh w0).2 p.
Proof.
  intros H0. apply (run_inv acts Fresh w0 PInit); [by rewrite H0|done].
Qed.

Lemma latest_activation_snoc evs e :
  latest_activation (evs ++ [e]) =
    match e with
    | EvEffect v => Some v
    | _ => latest_activation evs
    end.
Proof.
  induction evs as [|e0 evs IH]; simpl.
  - by destruct e.
  - rewrite IH. destruct e; try done.
Qed.

Lemma scan_latest evs p :
  scan PInit evs = Some p →
  match p with
  | PActive h | PIdle h => latest_activation evs = Some (VSignal h)
  | _ => True
  end.
Proof.
  revert p. induction evs as [|e evs IH] using rev_ind; intros p.
  - by intros [= <-].
  - rewrite scan_app. destruct (scan PInit evs) as [q|] eqn:Hq; [|done].
    simpl. destruct (next q e) as [p'|] eqn:Hn; [|done]. intros [= ->].
    specialize (IH q eq_refl). rewrite latest_activation_snoc.
    destruct e as [k|v|v|who k|k l]; destruct q as [|j|j|j]; simpl in Hn;
      try discriminate;
      try (destruct v as [| |k|k]; try discriminate);
      try (destruct who; try discriminate);
      repeat (case_bool_decide; try discriminate);
      by simplify_eq.
Qed.

Lemma is_active_one p h : is_active p h ≠ 0 → p = PActive h.
Proof.
  destruct p as [|k|k|k]; simpl; try done.
  case_bool_decide; [by subst|done].
Qed.
End lives.

(** C8, as the claim states it, fails: the [effect] of the second run
    throws (line 118) before the callback has returned a cleanup, so none is
    registered for that run.  The life ends with the exception; the run that
    worked with controller 1 was started once and is never torn down. *)
Lemma throwing_run_never_torn_down :
  (run throwing_life Fresh (empty_world true)).1 = Throw (VPrim (PStr "boom"))
  ∧ log (run throwing_life Fresh (empty_world true)).2
    = [EvCreate 0; EvEffect (VSignal 0); EvAbortCall ByBinder 0;
       EvCreate 1; EvEffect (VSignal 1)]
  ∧ activations 1 (log (run throwing_life Fresh (empty_world true)).2) = 1
  ∧ teardowns 1 (log (run throwing_life Fresh (empty_world true)).2) = 0
  ∧ signal_aborted 1 (run throwing_life Fresh (empty_world true)).2 = false.
Proof. vm_compute. done. Qed.

(** C8, amended.  Take the log of any life of an instance and cut it
    anywhere.  Up to the cut every controller has served at most one run and
    every run was torn down at most once; at most one run has not been torn
    down; and if the event after the cut makes a controller or calls
    [effect], every run before it has been torn down.  Every call of
    [effect] is a run.  When the instance ends destroyed, each run has been
    torn down exactly once; however the life ends, each run but the most
    recent has.  A run whose [effect] throws returns no cleanup.  In a
    render that schedules the effect the cleanup of the previous run is
    called first: the default cleanup is [abort()] on the controller of that
    run, after which the host's controller is aborted, a cleanup function of
    the caller is called with that controller; the callback, which makes the
    next controller, starts in the store the cleanup left when it returned.
    The same cleanup is called when the instance is destroyed. *)
Theorem teardown_before_next_run acts w0 evs1 evs2 :
  log w0 = [] →
  log (run acts Fresh w0).2 = evs1 ++ evs2 →
  (∀ h, teardowns h evs1 ≤ activations h evs1 ∧ activations h evs1 ≤ 1)
  ∧ (∀ h1 h2, teardowns h1 evs1 < activations h1 evs1 →
              teardowns h2 evs1 < activations h2 evs1 → h1 = h2)
  ∧ (∀ e evs3, evs2 = e :: evs3 →
       (∃ h, e = EvCreate h) ∨ is_effect_event e = true →
       ∀ h, teardowns h evs1 = activations h evs1)
  ∧ (∀ v evs3, evs2 = EvEffect v :: evs3 → ∃ h, v = VSignal h)
  ∧ ((run acts Fresh w0).1 = Ok Dead → evs2 = [] →
       ∀ h, teardowns h evs1 = activations h evs1)
  ∧ (evs2 = [] →
       ∀ h, latest_activation evs1 ≠ Some (VSignal h) →
            teardowns h evs1 = activations h evs1)
  ∧ (∀ hk effect w s w1 e,
       hooks_ok hk w → invocation hk w = (Ok s, w1) →
       (effect s w1).2 = Throw e →
       effect_callback hk effect w = (Throw e, user_ops (effect s w1).1 w1))
  ∧ (∀ hk w h effect deps,
       live_ok hk w h → has_effect (Some hk) deps = true →
       let hk' := mkHooks (firstRun hk) (controllerRef hk) deps None in
       (effect_destroy hk = Some (DestroyDefault (VController h)) →
          step (Render effect deps) (Live hk) w =
            match effect_callback hk' effect (call_abort ByBinder h w) with
            | (Ok d, w2) => (Ok (Live (set_destroy (Some d) hk')), w2)
            | (Throw e, w2) => (Throw e, w2)
            end
          ∧ step Unmount (Live hk) w = (Ok Dead, call_abort ByBinder h w)
          ∧ (∀ c, heap w !! h = Some c → kind c = Native →
                  signal_aborted h (call_abort ByBinder h w) = true))
       ∧ (∀ f, effect_destroy hk = Some (DestroyCustom f (VController h)) →
            let w3 := emit [EvCustomCleanup (VController h)] w in
            let w4 := user_ops (f (VController h) w3).1 w3 in
            step (Render effect deps) (Live hk) w =
              match (f (VController h) w3).2 with
              | Ok _ =>
                  match effect_callback hk' effect w4 with
                  | (Ok d, w2) => (Ok (Live (set_destroy (Some d) hk')), w2)
                  | (Throw e, w2) => (Throw e, w2)
                  end
              | Throw e => (Throw e, w4)
              end
            ∧ step Unmount (Live hk) w =
                (match (f (VController h) w3).2 with
                 | Ok _ => Ok Dead
                 | Throw e => Throw e
                 end, w4))).
Proof.
  intros H0 Hlog.
  destruct (run_from_fresh acts w0 H0) as (p & Hs & Hag).
  rewrite Hlog in Hs.
  pose proof Hs as Hs'. rewrite scan_app in Hs'.
  destruct (scan PInit evs1) as [q|] eqn:Hq; [|done]. simpl in Hs'.
  pose proof (scan_counts evs1 q Hq) as Hc.
  split; [|split; [|split; [|split; [|split; [|split; [|split]]]]]].
  - intros h. destruct (Hc h) as (H1 & H2 & _). lia.
  - intros h1 h2 Hlt1 Hlt2.
    destruct (Hc h1) as (_ & H1 & _). destruct (Hc h2) as (_ & H2 & _).
    assert (q = PActive h1) by (apply is_active_one; lia).
    assert (q = PActive h2) by (apply is_active_one; lia).
    congruence.
  - intros e evs3 -> He h. destruct (Hc h) as (_ & H2 & _).
    cbn [scan] in Hs'. destruct (next q e) as [q'|] eqn:Hn; [|done].
    assert (is_active q h = 0); [|lia].
    destruct He as [[k ->]|He].
    + destruct q; simpl in Hn; try done.
    + destruct e as [|v| | |]; try discriminate.
      destruct v as [| |k|]; destruct q; simpl in Hn; try done.
  - intros v evs3 ->. cbn [scan] in Hs'.
    destruct (next q (EvEffect v)) as [q'|] eqn:Hn; [|done].
    destruct v as [| |k|]; destruct q; simpl in Hn; try done. eauto.
  - intros Hdead -> h. simpl in Hs'. injection Hs' as ->.
    destruct (Hag Dead Hdead) as (k & -> & _).
    destruct (Hc h) as (_ & H2 & _). simpl in H2. lia.
  - intros -> h Hlatest. destruct (Hc h) as (_ & H2 & _).
    assert (is_active q h = 0); [|lia].
    destruct (decide (is_active q h = 0)) as [|Hne]; [done|].
    apply is_active_one in Hne. subst q.
    destruct Hlatest. apply (scan_latest evs1 (PActive h) Hq).
  - intros hk effect w s w1 e Hok Hi He.
    destruct (effect_callback_result hk effect w s w1 Hok Hi) as (h & -> & _ & _ & ->).
    by rewrite He.
  - intros hk w h effect deps Hlive Hhas hk'.
    pose proof (live_hooks_ok _ _ _ Hlive) as Hok. split.
    + intros Hd. split; [|split].
      * rewrite (step_render_live _ _ _ _ Hok). cbv zeta. rewrite Hhas.
        unfold run_cleanup. by rewrite Hd, run_destroy_default.
      * rewrite step_unmount. unfold run_cleanup. by rewrite Hd, run_destroy_default.
      * intros c Hh Hk. by eapply call_abort_sets.
    + intros f Hd w3 w4. split.
      * rewrite (step_render_live _ _ _ _ Hok). cbv zeta. rewrite Hhas.
        unfold run_cleanup. rewrite Hd, run_destroy_custom. fold w3 w4.
        by destruct (f (VController h) w3).2 as [[]|e].
      * rewrite step_unmount. unfold run_cleanup. rewrite Hd, run_destroy_custom.
        fold w3 w4. by destruct (f (VController h) w3).2 as [[]|e].
Qed.

Lemma teardown_before_next_run_witness :
  log (empty_world true) = []
  ∧ ∀ h, teardowns h (log (run [Render effect_nothing None; Render effect_custom None;
                                Unmount] Fresh (empty_world true)).2)
         = activations h (log (run [Render effect_nothing None; Render effect_custom None;
                                    Unmount] Fresh (empty_world true)).2).
Proof.
  split; [reflexivity|].
  destruct (teardown_before_next_run
              [Render effect_nothing None; Render effect_custom None; Unmount]
              (empty_world true)
              (log (run [Render effect_nothing None; Render effect_custom None;
                         Unmount] Fresh (empty_world true)).2)
              [] eq_refl) as (_ & _ & _ & _ & Hdead & _).
  - vm_compute. reflexivity.
  - apply Hdead; reflexivity.
Defined.

(** C5.  The hook returns the same ref object in every render: the one the
    first render made and put the first controller into.  Between the steps
    of a live instance, whenever code of the caller may look, its [current]
    is a controller object that is in the store, the one the most recent run
    worked with; a render does not change it, and no step changes which ref
    object the hook returns. *)
Theorem ref_holds_latest_handle acts w0 hk w :
  log w0 = [] →
  run acts Fresh w0 = (Ok (Live hk), w) →
  (∃ h c, refs w !! controllerRef hk = Some (VController h)
          ∧ heap w !! h = Some c
          ∧ latest_activation (log w) = Some (VSignal h))
  ∧ (∀ effect deps, ∃ r,
       useAbortableEffect effect deps (Some hk) w = (Ok r, w)
       ∧ returned r = controllerRef hk
       ∧ controllerRef (hooks r) = controllerRef hk)
  ∧ (∀ a hk', (step a (Live hk) w).1 = Ok (Live hk') →
       controllerRef hk' = controllerRef hk)
  ∧ (∀ effect deps w1, ∃ r h,
       (useAbortableEffect effect deps None w1).1 = Ok r
       ∧ controllerRef (hooks r) = returned r
       ∧ refs (useAbortableEffect effect deps None w1).2 !! returned r
         = Some (VController h)
       ∧ heap (useAbortableEffect effect deps None w1).2 !! h
         = Some (if has_AbortController w1 then new_AbortController
                 else mockAbortController)).
Proof.
  intros H0 Hrun.
  destruct (run_from_fresh acts w0 H0) as (p & Hs & Hag).
  rewrite Hrun in Hs, Hag. simpl in *.
  destruct (Hag (Live hk) eq_refl) as (h & -> & Hlive).
  pose proof (live_hooks_ok _ _ _ Hlive) as Hok.
  split; [|split; [|split]].
  - destruct Hlive as (Hne & Hf & Hc & Hh & _).
    destruct (lookup_lt_is_Some_2 _ _ Hh) as [c Hc'].
    exists h, c. split; [done|]. split; [done|].
    apply (scan_latest _ _ Hs).
  - intros effect deps. rewrite (render_again _ _ _ _ Hok). eauto.
  - intros a hk' Hstep. destruct a as [effect deps| |ops].
    + rewrite (step_render_live _ _ _ _ Hok) in Hstep. cbv zeta in Hstep.
      destruct (has_effect (Some hk) deps).
      * destruct (run_cleanup hk w) as [[[]|e] w1]; [|discriminate].
        destruct (effect_callback _ effect w1) as [[d|e] w2]; [|discriminate].
        by injection Hstep as <-.
      * by injection Hstep as <-.
    + rewrite step_unmount in Hstep.
      destruct (run_cleanup hk w) as [[[]|e] w1]; discriminate.
    + by injection Hstep as <-.
  - intros effect deps w1. rewrite render_first. simpl.
    eexists. exists (length (heap w1)).
    split; [done|]. simpl. split; [done|]. split.
    + rewrite lookup_app_r by lia.
      by replace (S (length (refs w1)) - length (refs w1)) with 1 by lia.
    + rewrite lookup_app_r by lia. by rewrite Nat.sub_diag.
Qed.

Lemma ref_holds_latest_handle_witness :
  log (empty_world true) = []
  ∧ ∃ h c,
      refs (run [Render effect_nothing None] Fresh (empty_world true)).2 !! 1
        = Some (VController h)
      ∧ heap (run [Render effect_nothing None] Fresh (empty_world true)).2 !! h
        = Some c.
Proof.
  split; [reflexivity|].
  destruct (ref_holds_latest_handle [Render effect_nothing None] (empty_world true)
              (mkHooks 0 1 None (Some (DestroyDefault (VController 0))))
              (run [Render effect_nothing None] Fresh (empty_world true)).2
              eq_refl eq_refl) as ((h & c & Hr & Hc & _) & _).
  exists h, c. split; [exact Hr|exact Hc].
Defined.

(** ** The fallback object and the host's controller *)

Section primitive.
Implicit Types (w : World) (h k : Handle) (l : Listener).

Lemma all_mock_not_aborted w h : all_mock w → signal_aborted h w = false.
Proof.
  intros [_ Hf]. unfold signal_aborted.
  destruct (heap w !! h) as [c|] eqn:Hc; [|done].
  rewrite Forall_forall in Hf. rewrite (Hf c); [done|].
  apply list_elem_of_lookup. eauto.
Qed.

Lemma abort_object_idem k w : abort_object k (abort_object k w) = abort_object k w.
Proof.
  unfold abort_object at 2.
  destruct (heap w !! k) as [c|] eqn:Hc; [|by unfold abort_object; rewrite Hc].
  destruct (kind c) eqn:Hk; [|by unfold abort_object; rewrite Hc, Hk].
  destruct (aborted c) eqn:Ha; [by unfold abort_object; rewrite Hc, Hk, Ha|].
  unfold abort_object. simpl. rewrite Hc, Hk, Ha.
  rewrite list_lookup_insert_eq by (by eapply lookup_lt_Some). done.
Qed.

Lemma notify_count h l ls :
  NoDup ls →
  count (is_notify h l) (map (EvNotify h) ls) = if bool_decide (l ∈ ls) then 1 else 0.
Proof.
  induction 1 as [|x ls Hx Hnd IH]; [done|].
  change (map (EvNotify h) (x :: ls)) with ([EvNotify h x] ++ map (EvNotify h) ls).
  rewrite count_app, count_one, IH. simpl.
  rewrite bool_decide_eq_true_2 by done. simpl.
  destruct (decide (x = l)) as [->|Hne].
  - rewrite bool_decide_eq_true_2 by done.
    rewrite (bool_decide_eq_false_2 (l ∈ ls)) by done.
    rewrite bool_decide_eq_true_2 by (apply elem_of_cons; auto). done.
  - rewrite bool_decide_eq_false_2 by done. simpl.
    case_bool_decide as Hl.
    + rewrite bool_decide_eq_true_2 by (apply elem_of_cons; auto). done.
    + rewrite bool_decide_eq_false_2; [done|].
      intros [?|?]%elem_of_cons; done.
Qed.

Lemma created_native w h w1 :
  has_AbortController w = true → createAbortController w = (Ok h, w1) →
  native_at h w1.
Proof.
  intros Ha [= <- <-]. exists new_AbortController. simpl. rewrite Ha.
  split; [|split; [done|apply NoDup_nil_2]].
  rewrite lookup_app_r by lia. by rewrite Nat.sub_diag.
Qed.
End primitive.

(** C6.  In an environment without [AbortController] every controller the
    hook makes is the mock object.  [abort()] on it changes nothing,
    registering a listener changes nothing, [aborted] is [false] and stays
    so through any life of an instance, and no listener is ever notified.
    Making a controller returns normally, and so does the render. *)
Theorem fallback_is_inert acts w0 :
  all_mock w0 →
  (createAbortController w0).1 = Ok (length (heap w0))
  ∧ heap (createAbortController w0).2 !! length (heap w0) = Some mockAbortController
  ∧ all_mock (createAbortController w0).2
  ∧ (∀ who h, call_abort who h w0 = emit [EvAbortCall who h] w0)
  ∧ (∀ h l, add_listener h l w0 = w0 ∧ remove_listener h l w0 = w0)
  ∧ (∀ effect deps, ∃ r, (useAbortableEffect effect deps None w0).1 = Ok r)
  ∧ all_mock (run acts Fresh w0).2
  ∧ (∀ h, signal_aborted h (run acts Fresh w0).2 = false)
  ∧ (∀ h l, notifications h l (log (run acts Fresh w0).2)
            = notifications h l (log w0)).
Proof.
  intros Hm.
  destruct (rtc_touch_mock _ _ (tracked_run acts Fresh w0) Hm) as [Hm' Hn'].
  destruct (touch_mock _ _ (touch_create w0) Hm) as [Hmc _].
  split; [done|]. split.
  { simpl. destruct Hm as [-> _].
    rewrite lookup_app_r by lia. by rewrite Nat.sub_diag. }
  split; [done|]. split.
  { intros who h. unfold call_abort. by rewrite abort_object_mock. }
  split.
  { intros h l. by rewrite add_listener_mock, remove_listener_mock. }
  split.
  { intros effect deps. rewrite render_first. eauto. }
  split; [done|]. split; [|done].
  intros h. by apply all_mock_not_aborted.
Qed.

Lemma fallback_is_inert_witness :
  all_mock (empty_world false)
  ∧ ∀ h, signal_aborted h
           (run [Render effect_listen None; Outside [UAbortCurrent 1]; Unmount]
              Fresh (empty_world false)).2 = false.
Proof.
  assert (Hm : all_mock (empty_world false)).
  { split; [reflexivity|apply Forall_nil_2]. }
  split; [exact Hm|].
  destruct (fallback_is_inert
              [Render effect_listen None; Outside [UAbortCurrent 1]; Unmount]
              (empty_world false) Hm) as (_ & _ & _ & _ & _ & _ & _ & Ha & _).
  exact Ha.
Defined.

Lemma abort_object_aborted h w : signal_aborted h w = true → abort_object h w = w.
Proof.
  unfold signal_aborted, abort_object.
  destruct (heap w !! h) as [c|]; [|done].
  intros ->. by destruct (kind c).
Qed.

(** C7, as the claim states it, fails: in an environment without
    [AbortController] the controller in the ref object is the mock object.
    The effect registered a listener and a handler called
    [ref.current.abort()], yet [signal.aborted] is still [false] and nobody
    was notified. *)
Lemma abort_on_fallback_handle :
  (run fallback_life Fresh (empty_world false)).1
    = Ok (Live (mkHooks 0 1 None (Some (DestroyDefault (VController 0)))))
  ∧ refs (run fallback_life Fresh (empty_world false)).2 !! 1 = Some (VController 0)
  ∧ log (run fallback_life Fresh (empty_world false)).2
    = [EvCreate 0; EvEffect (VSignal 0); EvAbortCall ByUser 0]
  ∧ signal_aborted 0 (run fallback_life Fresh (empty_world false)).2 = false.
Proof. vm_compute. done. Qed.

(** C7, amended.  For a controller made while the environment has
    [AbortController]: whenever [abort()] is called on it, by whomever,
    [signal.aborted] is [true] afterwards; the call that finds it [false]
    notifies each registered listener exactly once, a call that finds it
    [true] does nothing but being called; from then on [aborted] stays
    [true] and every further call does nothing.  For every controller, mock
    or not: [abort()] twice is [abort()] once, [aborted] never goes back to
    [false], and every step of an instance is made of changes that keep
    this. *)
Theorem abort_once_and_for_all w0 h w1 w2 who :
  has_AbortController w0 = true →
  createAbortController w0 = (Ok h, w1) →
  rtc touch w1 w2 →
  signal_aborted h (call_abort who h w2) = true
  ∧ (signal_aborted h w2 = false →
       ∀ l, notifications h l (log (call_abort who h w2))
            = notifications h l (log w2) + (if registered h l w2 then 1 else 0))
  ∧ (signal_aborted h w2 = true →
       call_abort who h w2 = emit [EvAbortCall who h] w2)
  ∧ (∀ w4, rtc touch (call_abort who h w2) w4 →
       signal_aborted h w4 = true
       ∧ ∀ who', call_abort who' h w4 = emit [EvAbortCall who' h] w4)
  ∧ (∀ k w, abort_object k (abort_object k w) = abort_object k w)
  ∧ (∀ k w w', signal_aborted k w = true → rtc touch w w' →
       signal_aborted k w' = true)
  ∧ (∀ a i w, rtc touch w (step a i w).2).
Proof.
  intros Ha Hc Hrtc.
  pose proof (rtc_touch_native _ _ h Hrtc (created_native _ _ _ Ha Hc))
    as (c & Hh & Hk & Hnd).
  assert (Hab : signal_aborted h (call_abort who h w2) = true)
    by (by eapply call_abort_sets).
  split; [done|]. split; [|split; [|split; [|split; [|split]]]].
  - unfold signal_aborted, registered. rewrite Hh. intros Hac l.
    unfold call_abort, abort_object. simpl. rewrite Hh, Hk, Hac. simpl.
    unfold notifications. rewrite !count_app, count_one. simpl.
    rewrite (notify_count h l _ Hnd). lia.
  - intros Hac. unfold call_abort. rewrite abort_object_aborted; [done|].
    unfold signal_aborted in *. simpl. done.
  - intros w4 H4.
    assert (H4a : signal_aborted h w4 = true) by (by eapply rtc_touch_aborted).
    split; [done|]. intros who'. unfold call_abort.
    rewrite abort_object_aborted; [done|]. unfold signal_aborted in *. simpl. done.
  - apply abort_object_idem.
  - intros k w w' Hk' Hr. by eapply rtc_touch_aborted.
  - intros a i w. apply tracked_step.
Qed.

Lemma abort_once_and_for_all_witness :
  has_AbortController (empty_world true) = true
  ∧ signal_aborted 0
      (call_abort ByUser 0 (add_listener 0 7 (createAbortController (empty_world true)).2))
    = true.
Proof.
  split; [reflexivity|].
  destruct (abort_once_and_for_all (empty_world true) 0
              (createAbortController (empty_world true)).2
              (add_listener 0 7 (createAbortController (empty_world true)).2)
              ByUser eq_refl eq_refl (rtc_once _ _ (touch_listen 0 7 _)))
    as (Hab & _).
  exact Hab.
Defined.

(** ** Dependency lists *)





(** ** The tests of the repository, on the model *)

(** [re-runs on deps change] *)
Example test_reruns_on_deps_change :
  count is_effect_event
    (log (run [Render effect_nothing some_value] Fresh (empty_world true)).2) = 1
  ∧ count is_effect_event
      (log (run [Render effect_nothing some_value; Render effect_nothing some_value]
              Fresh (empty_world true)).2) = 1
  ∧ count is_effect_event
      (log (run [Render effect_nothing some_value; Render effect_nothing some_value;
                 Render effect_nothing new_value] Fresh (empty_world true)).2) = 2.
Proof. vm_compute. done. Qed.

(** Dependency lists of different lengths: the host compares the positions
    both lists have, and keeps the list of the last run to compare with.  The
    second render is not a run, the third one is, for its second element
    differs from that of the first list. *)
Example deps_compared_with_last_run :
  (run [Render effect_nothing deps_a_b; Render effect_nothing deps_a]
     Fresh (empty_world true)).1
  = Ok (Live (mkHooks 0 1 deps_a_b (Some (DestroyDefault (VController 0)))))
  ∧ log (run [Render effect_nothing deps_a_b; Render effect_nothing deps_a;
              Render effect_nothing deps_a_c] Fresh (empty_world true)).2
    = [EvCreate 0; EvEffect (VSignal 0); EvAbortCall ByBinder 0;
       EvCreate 1; EvEffect (VSignal 1)].
Proof. vm_compute. done. Qed.

(** Numbers in a dependency list: [NaN] is unchanged, [0] and [-0] differ,
    unlike under [===]. *)
Example object_is_on_numbers :
  object_is (VPrim (PNum S754_nan)) (VPrim (PNum S754_nan)) = true
  ∧ strict_equals (VPrim (PNum S754_nan)) (VPrim (PNum S754_nan)) = false
  ∧ object_is (VPrim (PNum (S754_zero false))) (VPrim (PNum (S754_zero true))) = false
  ∧ strict_equals (VPrim (PNum (S754_zero false))) (VPrim (PNum (S754_zero true))) = true
  ∧ object_is (VPrim (PNum (number 1))) (VPrim (PNum (number 1))) = true
  ∧ number (2 ^ 53 + 1) = number (2 ^ 53).
Proof. vm_compute. done. Qed.

(** [by default aborts on cleanup] *)
Example test_aborts_on_cleanup :
  signal_aborted 0 (run [Render effect_nothing None] Fresh (empty_world true)).2 = false
  ∧ signal_aborted 0
      (run [Render effect_nothing None; Render effect_nothing None]
         Fresh (empty_world true)).2 = true.
Proof. vm_compute. done. Qed.

(** [supports custom cleanup function] *)
Example test_custom_cleanup :
  log (run [Render effect_custom None; Render effect_custom None]
         Fresh (empty_world true)).2
  = [EvCreate 0; EvEffect (VSignal 0);
     EvCustomCleanup (VController 0); EvAbortCall ByUser 0;
     EvCreate 1; EvEffect (VSignal 1)].
Proof. vm_compute. done. Qed.

(** [creates new abort controller for each effect run] *)
Example test_new_controller_each_run :
  refs (run [Render effect_nothing some_value] Fresh (empty_world true)).2 !! 1
    = Some (VController 0)
  ∧ refs (run [Render effect_nothing some_value; Render effect_nothing new_value]
            Fresh (empty_world true)).2 !! 1 = Some (VController 1)
  ∧ latest_activation
      (log (run [Render effect_nothing some_value; Render effect_nothing new_value]
              Fresh (empty_world true)).2) = Some (VSignal 1).
Proof. vm_compute. done. Qed.

(** [supports custom async operation aborting]: the listener the effect
    registered is notified when a handler aborts through the ref object. *)
Example test_manual_abort_notifies :
  log (run [Render effect_listen None; Outside [UAbortCurrent 1; UAbortCurrent 1]]
         Fresh (empty_world true)).2
  = [EvCreate 0; EvEffect (VSignal 0); EvAbortCall ByUser 0; EvNotify 0 7;
     EvAbortCall ByUser 0].
Proof. vm_compute. done. Qed.

(** * Further properties of the hook *)

(** ** Notifications over whole lives *)

Section notifications.
Implicit Types (w : World) (h k : Handle) (l : Listener).

Lemma notify_count_other h k l ls :
  k ≠ h → count (is_notify k l) (map (EvNotify h) ls) = 0.
Proof.
  intros Hne. induction ls as [|x ls IH]; [done|].
  change (map (EvNotify h) (x :: ls)) with ([EvNotify h x] ++ map (EvNotify h) ls).
  rewrite count_app, count_one, IH. simpl.
  by rewrite (bool_decide_eq_false_2 (h = k)) by congruence.
Qed.

Lemma notify_count_le h k l ls :
  NoDup ls → count (is_notify k l) (map (EvNotify h) ls) ≤ 1.
Proof.
  intros Hnd. destruct (decide (k = h)) as [->|Hne].
  - rewrite notify_count by done. case_bool_decide; lia.
  - rewrite notify_count_other by done. lia.
Qed.

Lemma listeners_ok_update w h c' :
  NoDup (listeners c') → listeners_ok w →
  listeners_ok (set_heap (<[h := c']> (heap w)) w).
Proof.
  intros Hnd Hok k c. simpl. destruct (decide (k = h)) as [->|Hne].
  - destruct (decide (h < length (heap w))) as [Hlt|Hge].
    + rewrite list_lookup_insert_eq by done. by intros [= <-].
    + rewrite list_insert_ge by lia. apply Hok.
  - rewrite list_lookup_insert_ne by done. apply Hok.
Qed.

Lemma aborted_update_other w h k c' :
  k ≠ h →
  signal_aborted k (set_heap (<[h := c']> (heap w)) w) = signal_aborted k w.
Proof.
  intros Hne. unfold signal_aborted. simpl. by rewrite list_lookup_insert_ne.
Qed.

Lemma notified_once_emit w e :
  (∀ k m, e ≠ EvNotify k m) → notified_once w → notified_once (emit [e] w).
Proof.
  intros He [Hok Hn]. split; [done|]. intros h l. simpl.
  rewrite notifications_snoc by done. apply Hn.
Qed.

Lemma notified_once_abort h w : notified_once w → notified_once (abort_object h w).
Proof.
  intros [Hok Hn]. unfold abort_object.
  destruct (heap w !! h) as [c|] eqn:Hh; [|done].
  destruct (kind c) eqn:Hk; [|done].
  destruct (aborted c) eqn:Ha; [done|].
  pose proof (Hok h c Hh) as Hnd.
  split.
  - apply (listeners_ok_update w h (mkController Native true (listeners c))); done.
  - intros k l. simpl. unfold notifications. rewrite count_app.
    fold (notifications k l (log w)).
    destruct (Hn k l) as [Hle Hzero].
    destruct (decide (k = h)) as [->|Hne].
    + assert (notifications h l (log w) = 0) as ->.
      { apply Hzero. unfold signal_aborted. by rewrite Hh. }
      pose proof (notify_count_le h h l _ Hnd). split; [lia|].
      unfold signal_aborted. simpl.
      rewrite list_lookup_insert_eq by (by eapply lookup_lt_Some). done.
    + rewrite notify_count_other by done.
      unfold signal_aborted in *. simpl.
      rewrite list_lookup_insert_ne by done. split; [lia|].
      intros Hf. rewrite Hzero by done. lia.
Qed.

Lemma notified_once_touch w w' : touch w w' → notified_once w → notified_once w'.
Proof.
  destruct 1 as [v w|v w|who h w|h l w|h l w|w|rs w]; intros Hn.
  - by apply notified_once_emit.
  - by apply notified_once_emit.
  - unfold call_abort. by apply notified_once_abort, notified_once_emit.
  - destruct Hn as [Hok Hn]. unfold add_listener.
    destruct (heap w !! h) as [c|] eqn:Hh; [|done].
    destruct (kind c) eqn:Hk; [|done].
    case_bool_decide as Hl; [done|]. split.
    + apply listeners_ok_update; [|done]. simpl.
      apply NoDup_app. split; [by eapply Hok|]. split.
      * intros x Hx ->%list_elem_of_singleton. done.
      * apply NoDup_singleton.
    + intros k m. simpl.
      replace (signal_aborted k (set_heap _ w)) with (signal_aborted k w); [apply Hn|].
      unfold signal_aborted. simpl. destruct (decide (k = h)) as [->|Hne].
      * rewrite list_lookup_insert_eq by (by eapply lookup_lt_Some). by rewrite Hh.
      * by rewrite list_lookup_insert_ne.
  - destruct Hn as [Hok Hn]. unfold remove_listener.
    destruct (heap w !! h) as [c|] eqn:Hh; [|done].
    destruct (kind c) eqn:Hk; [|done]. split.
    + apply listeners_ok_update; [|done]. simpl.
      apply NoDup_filter. by eapply Hok.
    + intros k m. simpl.
      replace (signal_aborted k (set_heap _ w)) with (signal_aborted k w); [apply Hn|].
      unfold signal_aborted. simpl. destruct (decide (k = h)) as [->|Hne].
      * rewrite list_lookup_insert_eq by (by eapply lookup_lt_Some). by rewrite Hh.
      * by rewrite list_lookup_insert_ne.
  - destruct Hn as [Hok Hn]. split.
    + intros k c. simpl. intros Hk.
      apply lookup_app_Some in Hk as [Hk|[_ Hk]]; [by eapply Hok|].
      destruct (k - length (heap w)) as [|n]; simpl in Hk; [|done].
      injection Hk as <-. destruct (has_AbortController w); apply NoDup_nil_2.
    + intros k m. simpl. rewrite notifications_snoc by done.
      destruct (Hn k m) as [Hle Hzero]. split; [done|].
      intros Hf. apply Hzero. unfold signal_aborted in *. simpl in Hf.
      destruct (heap w !! k) as [c|] eqn:Hk; [|done].
      by rewrite (lookup_app_l_Some _ _ _ _ Hk) in Hf.
  - done.
Qed.

Lemma notified_once_rtc w w' : rtc touch w w' → notified_once w → notified_once w'.
Proof. induction 1; eauto using notified_once_touch. Qed.
End notifications.

(** X1.  Through any life of an instance, whatever mix of aborts through
    the ref object, default cleanups and cleanup functions of the caller
    occurs: each listener of each signal is notified at most once, and never
    while the signal is not aborted. *)
Theorem listener_notified_at_most_once acts i w0 h l :
  listeners_ok w0 →
  log w0 = [] →
  notifications h l (log (run acts i w0).2) ≤ 1
  ∧ (signal_aborted h (run acts i w0).2 = false →
       notifications h l (log (run acts i w0).2) = 0).
Proof.
  intros Hok H0.
  assert (Hn0 : notified_once w0).
  { split; [done|]. intros k m. rewrite H0. cbn. split; [lia|done]. }
  destruct (notified_once_rtc _ _ (tracked_run acts i w0) Hn0) as [_ Hn].
  apply Hn.
Qed.

Lemma listener_notified_at_most_once_witness :
  listeners_ok (empty_world true)
  ∧ notifications 0 7
      (log (run [Render effect_listen None; Outside [UAbortCurrent 1];
                 Render effect_listen None; Unmount] Fresh (empty_world true)).2) ≤ 1.
Proof.
  assert (Hok : listeners_ok (empty_world true)).
  { intros k c Hk. cbn in Hk. rewrite lookup_nil in Hk. discriminate. }
  split; [exact Hok|].
  destruct (listener_notified_at_most_once
              [Render effect_listen None; Outside [UAbortCurrent 1];
               Render effect_listen None; Unmount] Fresh (empty_world true) 0 7
              Hok eq_refl) as [Hle _].
  exact Hle.
Defined.
(** ** The signal a run starts with *)

Lemma fresh_not_aborted (w : World) (c0 : Controller) (hp : list Controller) :
  heap w = hp ++ [c0] → aborted c0 = false →
  signal_aborted (length hp) w = false.
Proof.
  intros Hw Ha. unfold signal_aborted. rewrite Hw.
  rewrite lookup_app_r by lia. by rewrite Nat.sub_diag.
Qed.

Lemma fresh_not_registered (w : World) (c0 : Controller) (hp : list Controller) l :
  heap w = hp ++ [c0] → listeners c0 = [] →
  registered (length hp) l w = false.
Proof.
  intros Hw Hl. unfold registered. rewrite Hw.
  rewrite lookup_app_r by lia. rewrite Nat.sub_diag. simpl. rewrite Hl.
  apply bool_decide_eq_false_2, not_elem_of_nil.
Qed.

(** X2.  In every run after the first, [effect] is given the signal of a
    controller that the callback of this run has made: it was not in the
    store before, is not the controller of the previous run, is not aborted
    and has no listener - also right after the previous run was torn down,
    and in both environments.  In the first run [effect] is given the signal
    of the controller the first render made and put into the ref object,
    which the caller holds from then on: the controller is in the state the
    caller's code left it in between the render and the call.  If no code of
    the caller ran in between, as in a step of the host, it is not aborted
    and has no listener. *)
Theorem effect_sees_fresh_signal hk w h0 effect deps w1 :
  live_ok hk w h0 →
  has_effect (Some hk) deps = true →
  run_cleanup hk w = (Ok (), w1) →
  (let hk' := mkHooks (firstRun hk) (controllerRef hk) deps None in
   ∃ h w2,
     invocation hk' w1 = (Ok (VSignal h), w2)
     ∧ step (Render effect deps) (Live hk) w =
         (match (effect (VSignal h) w2).2 with
          | Ok v => Ok (Live (set_destroy (Some (cleanup_for (VController h) v)) hk'))
          | Throw e => Throw e
          end, user_ops (effect (VSignal h) w2).1 w2)
     ∧ heap w1 !! h = None
     ∧ h ≠ h0
     ∧ signal_aborted h w2 = false
     ∧ ∀ l, registered h l w2 = false)
  ∧ (∀ effect0 deps0 w0 ops,
       let hk0 := mkHooks (length (refs w0)) (S (length (refs w0))) deps0 None in
       let w0' := user_ops ops (useAbortableEffect effect0 deps0 None w0).2 in
       ∃ h w2,
         invocation hk0 w0' = (Ok (VSignal h), w2)
         ∧ effect_callback hk0 effect0 w0' =
             (match (effect0 (VSignal h) w2).2 with
              | Ok v => Ok (cleanup_for (VController h) v)
              | Throw e => Throw e
              end, user_ops (effect0 (VSignal h) w2).1 w2)
         ∧ heap w0 !! h = None
         ∧ refs (useAbortableEffect effect0 deps0 None w0).2 !! S (length (refs w0))
           = Some (VController h)
         ∧ heap w2 = heap w0'
         ∧ (ops = [] →
              step (Render effect0 deps0) Fresh w0 =
                (match (effect0 (VSignal h) w2).2 with
                 | Ok v =>
                     Ok (Live (set_destroy (Some (cleanup_for (VController h) v)) hk0))
                 | Throw e => Throw e
                 end, user_ops (effect0 (VSignal h) w2).1 w2)
              ∧ signal_aborted h w2 = false
              ∧ ∀ l, registered h l w2 = false)).
Proof.
  intros Hlive Hhas Hcl. split.
  - intros hk'.
    destruct (run_cleanup_frame hk w h0 Hlive) as (Hr & Hl).
    rewrite Hcl in Hr, Hl. simpl in Hr, Hl.
    pose proof Hlive as (Hne & Hf & Hc & Hh & _).
    pose proof (lookup_lt_Some _ _ _ Hc) as Hlc.
    assert (Hf1 : refs w1 !! firstRun hk' = Some js_false) by (by rewrite Hr).
    assert (Hc1 : controllerRef hk' < length (refs w1)) by (by rewrite Hr).
    pose proof (invocation_later hk' w1 Hne Hf1 Hc1) as Hi.
    exists (length (heap w1)). eexists. split; [exact Hi|]. split.
    { rewrite (step_render_live _ _ _ _ (live_hooks_ok _ _ _ Hlive)). cbv zeta.
      rewrite Hhas, Hcl. fold hk'.
      rewrite (effect_callback_invocation _ _ _ _ _ Hi).
      by destruct (effect _ _).2. }
    split; [by apply lookup_ge_None_2|]. split; [lia|].
    split.
    + eapply fresh_not_aborted; [reflexivity|].
      by destruct (has_AbortController w1).
    + intros l. eapply fresh_not_registered; [reflexivity|].
      by destruct (has_AbortController w1).
  - intros effect0 deps0 w0 ops hk0 w0'.
    pose proof (render_first effect0 deps0 w0) as Hr.
    set (w1' := (useAbortableEffect effect0 deps0 None w0).2) in *.
    assert (Hw1 : refs w1' = refs w0 ++ [js_true; VController (length (heap w0))]
                  ∧ heap w1' = heap w0 ++ [if has_AbortController w0
                                            then new_AbortController
                                            else mockAbortController]
                  ∧ has_AbortController w1' = has_AbortController w0)
      by (unfold w1'; by rewrite Hr).
    destruct Hw1 as (Hrefs & Hheap & Henv).
    destruct (user_ops_keeps ops w1') as (_ & Hkr & _). fold w0' in Hkr.
    assert (Hne0 : firstRun hk0 ≠ controllerRef hk0) by (simpl; lia).
    assert (Hf1 : refs w1' !! firstRun hk0 = Some js_true).
    { rewrite Hrefs. simpl. rewrite lookup_app_r by lia. by rewrite Nat.sub_diag. }
    assert (Hc1 : refs w1' !! controllerRef hk0 = Some (VController (length (heap w0)))).
    { rewrite Hrefs. simpl. rewrite lookup_app_r by lia.
      by replace (S (length (refs w0)) - length (refs w0)) with 1 by lia. }
    assert (Hf0 : refs w0' !! firstRun hk0 = Some js_true) by (by rewrite Hkr).
    assert (Hc0 : refs w0' !! controllerRef hk0 = Some (VController (length (heap w0))))
      by (by rewrite Hkr).
    pose proof (invocation_first hk0 w0' _ Hne0 Hf0 Hc0) as Hi.
    exists (length (heap w0)). eexists. split; [exact Hi|].
    split; [by apply effect_callback_invocation|].
    split; [by apply lookup_ge_None_2|]. split; [exact Hc1|].
    split; [done|]. intros ->.
    assert (Hw0' : w0' = w1') by done.
    split.
    { rewrite step_render_fresh. cbv zeta. fold hk0. fold w1'. rewrite <- Hw0'.
      rewrite (effect_callback_invocation _ _ _ _ _ Hi).
      by destruct (effect0 _ _).2. }
    split.
    + eapply fresh_not_aborted; [simpl; rewrite Hw0'; exact Hheap|].
      by destruct (has_AbortController w0).
    + intros l. eapply fresh_not_registered; [simpl; rewrite Hw0'; exact Hheap|].
      by destruct (has_AbortController w0).
Qed.

(** What the first half of X2 leaves open: a listener is registered and
    [ref.current.abort()] is called between the first render and the call of
    [effect], which then gets a signal that is aborted. *)
Example first_signal_as_the_caller_left_it :
  signal_aborted 0
    (invocation (mkHooks 0 1 None None)
       (user_ops [UListen 0 7; UAbortCurrent 1]
          (useAbortableEffect effect_nothing None None (empty_world true)).2)).2
  = true.
Proof. vm_compute. done. Qed.

Lemma sample_live_ok : live_ok sample_live_hooks sample_live_world 0.
Proof.
  split; [simpl; lia|]. split; [reflexivity|]. split; [reflexivity|].
  split; [simpl; lia|]. eexists. split; reflexivity.
Defined.

Lemma effect_sees_fresh_signal_witness :
  live_ok sample_live_hooks sample_live_world 0
  ∧ ∃ h w2,
      invocation (mkHooks 0 1 None None)
        (run_cleanup sample_live_hooks sample_live_world).2 = (Ok (VSignal h), w2)
      ∧ signal_aborted h w2 = false.
Proof.
  split; [exact sample_live_ok|].
  destruct (effect_sees_fresh_signal sample_live_hooks sample_live_world 0
              effect_nothing None
              (run_cleanup sample_live_hooks sample_live_world).2
              sample_live_ok eq_refl eq_refl)
    as [(h & w2 & Hi & _ & _ & _ & Ha & _) _].
  exists h, w2. split; [exact Hi|exact Ha].
Defined.

(** ** Lives with the default cleanup only *)

Section settled.
Implicit Types (w : World) (h k : Handle) (hk : Hooks) (effect : EffectFn).

Lemma keeps_kinds w w' :
  keeps w w' →
  (∀ k c, heap w !! k = Some c → kind c = Native) →
  ∀ k c, heap w' !! k = Some c → kind c = Native.
Proof.
  intros (_ & _ & Hl & _ & Hlk) Hk k c Hc.
  destruct (lookup_lt_is_Some_2 (heap w) k) as [c0 Hc0].
  { rewrite <- Hl. by eapply lookup_lt_Some. }
  destruct (Hlk k c0 Hc0) as (c' & Hc' & Hkind & _).
  rewrite Hc in Hc'. injection Hc' as <-. rewrite Hkind. by eapply Hk.
Qed.

Lemma all_native_touch w w' : touch w w' → all_native w → all_native w'.
Proof.
  intros Ht [Ha Hk]. split; [by rewrite (touch_env _ _ Ht)|].
  destruct Ht as [v w|v w|who h w|h l w|h l w|w|rs w]; try done.
  - apply (keeps_kinds (emit [EvAbortCall who h] w)); [|done].
    apply abort_object_keeps.
  - apply (keeps_kinds w); [apply add_listener_keeps|done].
  - apply (keeps_kinds w); [apply remove_listener_keeps|done].
  - intros k c. simpl. rewrite Ha. intros Hc.
    apply lookup_app_Some in Hc as [Hc|[_ Hc]]; [by eapply Hk|].
    destruct (k - length (heap w)) as [|n]; simpl in Hc; [|done].
    by injection Hc as <-.
Qed.

Lemma all_native_rtc w w' : rtc touch w w' → all_native w → all_native w'.
Proof. induction 1; eauto using all_native_touch. Qed.

Lemma aborted_except_keeps w w' o :
  keeps w w' → aborted_except o w → aborted_except o w'.
Proof.
  intros Hk Hab k Hlt Hne. eapply keeps_aborted; [exact Hk|].
  apply Hab; [|done]. destruct Hk as (_ & _ & <- & _). done.
Qed.

(** The default cleanup of the active run leaves every controller
    aborted. *)
Lemma default_cleanup_settles w h :
  all_native w → h < length (heap w) → aborted_except (Some h) w →
  aborted_except None (call_abort ByBinder h w)
  ∧ refs (call_abort ByBinder h w) = refs w
  ∧ length (heap (call_abort ByBinder h w)) = length (heap w).
Proof.
  intros [_ Hnat] Hh Hab.
  pose proof (abort_object_keeps h (emit [EvAbortCall ByBinder h] w)) as Hk.
  fold (call_abort ByBinder h w) in Hk.
  destruct Hk as (Hk1 & Hr & Hl & Hk4 & Hk5). simpl in Hr, Hl.
  split; [|by split].
  intros k Hlt _. rewrite Hl in Hlt.
  destruct (decide (k = h)) as [->|Hne].
  - destruct (lookup_lt_is_Some_2 _ _ Hh) as [c Hc].
    eapply call_abort_sets; [exact Hc|by eapply Hnat].
  - apply (keeps_aborted (emit [EvAbortCall ByBinder h] w)).
    + by repeat split.
    + apply Hab; [done|congruence].
Qed.

(** A run of the callback whose [effect] returns no function. *)
Lemma callback_settled hk effect w h w1 d :
  plain_effect effect →
  invocation hk w = (Ok (VSignal h), w1) →
  firstRun hk ≠ controllerRef hk →
  refs w1 !! firstRun hk = Some js_false →
  refs w1 !! controllerRef hk = Some (VController h) →
  h < length (heap w1) →
  aborted_except (Some h) w1 →
  (effect_callback hk effect w).1 = Ok d →
  settled (Live (set_destroy (Some d) hk)) (effect_callback hk effect w).2.
Proof.
  intros Hplain Hi Hne Hf Hc Hh Hab.
  rewrite (effect_callback_invocation _ _ _ _ _ Hi). simpl.
  pose proof (user_ops_keeps (effect (VSignal h) w1).1 w1) as Hk.
  intros Hd.
  assert (d = DestroyDefault (VController h)) as ->.
  { destruct (effect (VSignal h) w1).2 as [[f|v]|e] eqn:He; simpl in Hd;
      simplify_eq; [|done]. by destruct (Hplain (VSignal h) w1 f). }
  exists h. split; [|split; [done|by eapply aborted_except_keeps]].
  eapply keeps_live_ok; [exact Hk|].
  repeat split; auto. by eexists.
Qed.

Lemma step_settled a i w i' :
  all_native w → settled i w → plain_action a →
  (step a i w).1 = Ok i' → settled i' (step a i w).2.
Proof.
  intros Hnat Hset Hplain Hstep. destruct a as [effect deps| |ops].
  - simpl in Hplain. destruct i as [|hk|].
    + simpl in Hset. rewrite step_render_fresh in Hstep |- *. cbv zeta in Hstep |- *.
      pose proof (render_first effect deps w) as Hr.
      set (w1 := (useAbortableEffect effect deps None w).2) in *.
      set (hk0 := mkHooks _ _ _ _) in *.
      assert (Hw1 : refs w1 = refs w ++ [js_true; VController 0]
                    ∧ length (heap w1) = 1)
        by (unfold w1; rewrite Hr, Hset; by simpl).
      destruct Hw1 as (Hrefs & Hlen).
      assert (Hne0 : firstRun hk0 ≠ controllerRef hk0) by (simpl; lia).
      assert (Hf0 : refs w1 !! firstRun hk0 = Some js_true).
      { rewrite Hrefs. simpl. rewrite lookup_app_r by lia. by rewrite Nat.sub_diag. }
      assert (Hc0 : refs w1 !! controllerRef hk0 = Some (VController 0)).
      { rewrite Hrefs. simpl. rewrite lookup_app_r by lia.
        by replace (S (length (refs w)) - length (refs w)) with 1 by lia. }
      pose proof (invocation_first hk0 w1 0 Hne0 Hf0 Hc0) as Hi.
      pose proof (lookup_lt_Some _ _ _ Hf0) as Hlf.
      pose proof (lookup_lt_Some _ _ _ Hc0) as Hlc.
      destruct (effect_callback hk0 effect w1) as [[d|e] w3] eqn:Hcb;
        simpl in Hstep; [|discriminate]. injection Hstep as <-.
      replace w3 with (effect_callback hk0 effect w1).2 by (by rewrite Hcb).
      eapply callback_settled; try exact Hi; try done.
      * simpl. by rewrite list_lookup_insert_eq.
      * simpl. by rewrite list_lookup_insert_ne.
      * simpl. lia.
      * intros k Hk Hne. simpl in Hk. assert (k = 0) as -> by lia. done.
      * by rewrite Hcb.
    + destruct Hset as (h & Hlive & Hd & Hab).
      rewrite (step_render_live _ _ _ _ (live_hooks_ok _ _ _ Hlive)) in Hstep |- *.
      cbv zeta in Hstep |- *.
      destruct Hlive as (Hne & Hf & Hc & Hh & Hdd).
      destruct (has_effect (Some hk) deps).
      * unfold run_cleanup in Hstep |- *. rewrite Hd in Hstep |- *.
        rewrite run_destroy_default in Hstep |- *.
        destruct (default_cleanup_settles w h Hnat Hh Hab) as (Hab1 & Hr1 & Hl1).
        set (w1 := call_abort ByBinder h w) in *.
        set (hk' := mkHooks _ _ _ _) in *.
        assert (Hf1 : refs w1 !! firstRun hk' = Some js_false) by (by rewrite Hr1).
        assert (Hc1 : controllerRef hk' < length (refs w1)).
        { rewrite Hr1. by eapply lookup_lt_Some. }
        pose proof (lookup_lt_Some _ _ _ Hf1) as Hlf.
        pose proof (invocation_later hk' w1 Hne Hf1 Hc1) as Hi.
        destruct (effect_callback hk' effect w1) as [[d|e] w3] eqn:Hcb;
          simpl in Hstep; [|discriminate]. injection Hstep as <-.
        replace w3 with (effect_callback hk' effect w1).2 by (by rewrite Hcb).
        eapply callback_settled; try exact Hi; try done.
        -- simpl. by rewrite list_lookup_insert_ne.
        -- simpl. by rewrite list_lookup_insert_eq.
        -- simpl. rewrite length_app. simpl. lia.
        -- intros k Hk Hnek. simpl in Hk. rewrite length_app in Hk. simpl in Hk.
           assert (Hlt : k < length (heap w1)).
           { destruct (decide (k = length (heap w1))) as [->|]; [done|lia]. }
           unfold signal_aborted. simpl.
           rewrite lookup_app_l by done. by apply Hab1.
        -- by rewrite Hcb.
      * injection Hstep as <-. exists h. split; [|split; [done|done]].
        repeat split; auto.
    + injection Hstep as <-. done.
  - destruct i as [|hk|]; try (injection Hstep as <-; done).
    destruct Hset as (h & Hlive & Hd & Hab).
    destruct Hlive as (Hne & Hf & Hc & Hh & Hdd).
    rewrite step_unmount in Hstep |- *. unfold run_cleanup in Hstep |- *.
    rewrite Hd, run_destroy_default in Hstep |- *. injection Hstep as <-.
    by destruct (default_cleanup_settles w h Hnat Hh Hab) as (Hab1 & _).
  - unfold step, bind, modify, ret in Hstep |- *. simpl in Hstep |- *.
    injection Hstep as <-.
    pose proof (user_ops_keeps ops w) as Hk.
    destruct i as [|hk|]; simpl in *.
    + destruct Hk as (_ & _ & Hl & _). rewrite Hset in Hl. simpl in Hl.
      by apply nil_length_inv.
    + destruct Hset as (h & Hlive & Hd & Hab). exists h.
      split; [by eapply keeps_live_ok|]. split; [done|].
      by eapply aborted_except_keeps.
    + by eapply aborted_except_keeps.
Qed.

Lemma run_settled acts i w i' :
  all_native w → settled i w → Forall plain_action acts →
  (run acts i w).1 = Ok i' → settled i' (run acts i w).2.
Proof.
  revert i w. induction acts as [|a acts IH]; intros i w Hnat Hset Hpl; simpl.
  - by intros [= <-].
  - apply Forall_cons in Hpl as [Ha Hacts]. unfold bind.
    pose proof (step_settled a i w) as Hs.
    pose proof (all_native_rtc _ _ (tracked_step a i w) Hnat) as Hnat1.
    destruct (step a i w) as [[i1|e] w1]; simpl in *; [|discriminate].
    apply IH; auto.
Qed.

(** A run of the callback that works with the controller made last, all
    others being aborted: however it ends, all others are aborted. *)
Lemma callback_leaves_last hk effect w h w1 :
  invocation hk w = (Ok (VSignal h), w1) →
  length (heap w1) = S h →
  aborted_except (Some h) w1 →
  ∀ k, S k < length (heap (effect_callback hk effect w).2) →
       signal_aborted k (effect_callback hk effect w).2 = true.
Proof.
  intros Hi Hlen Hab k Hk.
  rewrite (effect_callback_invocation _ _ _ _ _ Hi) in Hk |- *. simpl in *.
  pose proof (user_ops_keeps (effect (VSignal h) w1).1 w1) as Hkeeps.
  eapply keeps_aborted; [exact Hkeeps|].
  destruct Hkeeps as (_ & _ & Hl & _). rewrite Hl, Hlen in Hk.
  apply Hab; [lia|]. intros [= ->]. lia.
Qed.

(** A step that throws: the exception comes from [effect], and every
    controller but the one of the run that threw is aborted. *)
Lemma step_settled_throw a i w e :
  all_native w → settled i w → plain_action a →
  (step a i w).1 = Throw e →
  ∀ k, S k < length (heap (step a i w).2) → signal_aborted k (step a i w).2 = true.
Proof.
  intros Hnat Hset Hplain Hstep. destruct a as [effect deps| |ops].
  - destruct i as [|hk|].
    + simpl in Hset. rewrite step_render_fresh in Hstep |- *. cbv zeta in Hstep |- *.
      pose proof (render_first effect deps w) as Hr.
      set (w1 := (useAbortableEffect effect deps None w).2) in *.
      set (hk0 := mkHooks _ _ _ _) in *.
      assert (Hw1 : refs w1 = refs w ++ [js_true; VController 0]
                    ∧ length (heap w1) = 1)
        by (unfold w1; rewrite Hr, Hset; by simpl).
      destruct Hw1 as (Hrefs & Hlen).
      assert (Hne0 : firstRun hk0 ≠ controllerRef hk0) by (simpl; lia).
      assert (Hf0 : refs w1 !! firstRun hk0 = Some js_true).
      { rewrite Hrefs. simpl. rewrite lookup_app_r by lia. by rewrite Nat.sub_diag. }
      assert (Hc0 : refs w1 !! controllerRef hk0 = Some (VController 0)).
      { rewrite Hrefs. simpl. rewrite lookup_app_r by lia.
        by replace (S (length (refs w)) - length (refs w)) with 1 by lia. }
      pose proof (invocation_first hk0 w1 0 Hne0 Hf0 Hc0) as Hi.
      pose proof (callback_leaves_last hk0 effect w1 0 _ Hi) as Hlast.
      destruct (effect_callback hk0 effect w1) as [[d|e'] w3]; [discriminate|].
      simpl in *. apply Hlast; [done|].
      intros k Hk Hne. simpl in Hk. assert (k = 0) as -> by lia. done.
    + destruct Hset as (h & Hlive & Hd & Hab).
      rewrite (step_render_live _ _ _ _ (live_hooks_ok _ _ _ Hlive)) in Hstep |- *.
      cbv zeta in Hstep |- *.
      destruct Hlive as (Hne & Hf & Hc & Hh & Hdd).
      destruct (has_effect (Some hk) deps); [|discriminate].
      unfold run_cleanup in Hstep |- *. rewrite Hd in Hstep |- *.
      rewrite run_destroy_default in Hstep |- *.
      destruct (default_cleanup_settles w h Hnat Hh Hab) as (Hab1 & Hr1 & Hl1).
      set (w1 := call_abort ByBinder h w) in *.
      set (hk' := mkHooks _ _ _ _) in *.
      assert (Hf1 : refs w1 !! firstRun hk' = Some js_false) by (by rewrite Hr1).
      assert (Hc1 : controllerRef hk' < length (refs w1)).
      { rewrite Hr1. by eapply lookup_lt_Some. }
      pose proof (invocation_later hk' w1 Hne Hf1 Hc1) as Hi.
      pose proof (callback_leaves_last hk' effect w1 _ _ Hi) as Hlast.
      destruct (effect_callback hk' effect w1) as [[d|e'] w3]; [discriminate|].
      simpl in *. apply Hlast.
      * rewrite length_app. simpl. lia.
      * intros k Hk Hnek. simpl in Hk. rewrite length_app in Hk. simpl in Hk.
        assert (Hlt : k < length (heap w1)).
        { destruct (decide (k = length (heap w1))) as [->|]; [done|lia]. }
        unfold signal_aborted. simpl.
        rewrite lookup_app_l by done. by apply Hab1.
    + discriminate.
  - destruct i as [|hk|]; try discriminate.
    destruct Hset as (h & Hlive & Hd & Hab).
    rewrite step_unmount in Hstep. unfold run_cleanup in Hstep.
    rewrite Hd, run_destroy_default in Hstep. discriminate.
  - destruct i; discriminate.
Qed.

Lemma run_settled_throw acts i w e :
  all_native w → settled i w → Forall plain_action acts →
  (run acts i w).1 = Throw e →
  ∀ k, S k < length (heap (run acts i w).2) → signal_aborted k (run acts i w).2 = true.
Proof.
  revert i w. induction acts as [|a acts IH]; intros i w Hnat Hset Hpl; simpl.
  - discriminate.
  - apply Forall_cons in Hpl as [Ha Hacts]. unfold bind.
    pose proof (step_settled a i w) as Hs.
    pose proof (step_settled_throw a i w) as Ht.
    pose proof (all_native_rtc _ _ (tracked_step a i w) Hnat) as Hnat1.
    destruct (step a i w) as [[i1|e'] w1]; simpl in *.
    + apply IH; auto.
    + intros _. by apply (Ht e').
Qed.
End settled.

(** X3.  By default the hook aborts whenever the effect is re-run.  In a
    life that starts with an empty store, in an environment that has
    [AbortController], and in which no [effect] returns a cleanup function:
    while the instance lives, every controller but the one in the ref object
    is aborted; once it is destroyed, every controller the hook ever made is
    aborted; and when an [effect] throws, which ends the life, every
    controller but the last one made, the one of the run that threw, is
    aborted - for that run no cleanup is registered. *)
Theorem default_cleanup_leaves_nothing_running acts w0 :
  has_AbortController w0 = true →
  heap w0 = [] →
  Forall plain_action acts →
  match (run acts Fresh w0).1 with
  | Ok Fresh => heap (run acts Fresh w0).2 = []
  | Ok (Live hk) =>
      ∃ h, refs (run acts Fresh w0).2 !! controllerRef hk = Some (VController h)
           ∧ h < length (heap (run acts Fresh w0).2)
           ∧ ∀ k, k < length (heap (run acts Fresh w0).2) → k ≠ h →
                  signal_aborted k (run acts Fresh w0).2 = true
  | Ok Dead =>
      ∀ k, k < length (heap (run acts Fresh w0).2) →
           signal_aborted k (run acts Fresh w0).2 = true
  | Throw _ =>
      ∀ k, S k < length (heap (run acts Fresh w0).2) →
           signal_aborted k (run acts Fresh w0).2 = true
  end.
Proof.
  intros Ha Hh Hpl.
  assert (Hnat : all_native w0).
  { split; [done|]. intros k c. rewrite Hh, lookup_nil. discriminate. }
  pose proof (run_settled acts Fresh w0) as Hs.
  pose proof (run_settled_throw acts Fresh w0) as Ht.
  destruct (run acts Fresh w0).1 as [i|e].
  - specialize (Hs i Hnat Hh Hpl eq_refl).
    destruct i as [|hk|]; simpl in Hs.
    + done.
    + destruct Hs as (h & (_ & _ & Hc & Hlt & _) & _ & Hab).
      exists h. split; [done|]. split; [done|].
      intros k Hk Hne. apply Hab; [done|congruence].
    + intros k Hk. by apply Hs.
  - by apply (Ht e).
Qed.

Lemma default_life_plain : Forall plain_action default_life.
Proof.
  repeat apply Forall_cons_2; try apply Forall_nil_2; try exact I;
    intros arg w f H; discriminate H.
Defined.

Lemma default_cleanup_leaves_nothing_running_witness :
  has_AbortController (empty_world true) = true
  ∧ ∀ k, k < length (heap (run default_life Fresh (empty_world true)).2) →
         signal_aborted k (run default_life Fresh (empty_world true)).2 = true.
Proof.
  split; [reflexivity|].
  exact (default_cleanup_leaves_nothing_running default_life (empty_world true)
           eq_refl eq_refl default_life_plain).
Defined.

(** ** Controllers made and runs started *)

Section creates.
Implicit Types (w : World) (h : Handle) (hk : Hooks) (p : Phase).

Lemma scan_creates evs p :
  scan PInit evs = Some p →
  count is_create evs
  = count is_effect_event evs + match p with PReady _ => 1 | _ => 0 end.
Proof.
  revert p. induction evs as [|e evs IH] using rev_ind; intros p.
  - by intros [= <-].
  - rewrite scan_app. destruct (scan PInit evs) as [q|] eqn:Hq; [|done].
    simpl. destruct (next q e) as [p'|] eqn:Hn; [|done]. intros [= ->].
    specialize (IH q eq_refl). rewrite !count_app, !count_one.
    destruct e as [k|v|v|who k|k l]; destruct q as [|j|j|j]; simpl in Hn;
      try discriminate;
      try (destruct v as [| |k|k]; try discriminate);
      try (destruct who; try discriminate);
      repeat (case_bool_decide; try discriminate);
      simplify_eq; simpl in *; lia.
Qed.

Lemma agrees_not_ready i w p : agrees i w p → not_ready p.
Proof.
  destruct i as [|hk|]; simpl.
  - by intros ->.
  - by intros (h & -> & _).
  - by intros (h & -> & _).
Qed.

(** Also a step that throws leaves no controller behind that has not
    served a run. *)
Lemma step_phase a i w p :
  scan PInit (log w) = Some p → agrees i w p →
  ∃ p', scan PInit (log (step a i w).2) = Some p' ∧ not_ready p'.
Proof.
  intros Hs Hag.
  destruct (step a i w).1 as [i'|e] eqn:Hres.
  - destruct (step_inv a i w p Hs Hag) as (p' & Hs' & Hag').
    exists p'. split; [done|]. eapply agrees_not_ready. by apply Hag'.
  - destruct a as [effect deps| |ops].
    + destruct i as [|hk|].
      * simpl in Hag. subst p. rewrite step_render_fresh in Hres |- *.
        cbv zeta in Hres |- *.
        pose proof (render_first effect deps w) as Hr.
        set (w1 := (useAbortableEffect effect deps None w).2) in *.
        set (hk0 := mkHooks _ _ _ _) in *.
        assert (Hw1 : refs w1 = refs w ++ [js_true; VController (length (heap w))]
                      ∧ length (heap w1) = S (length (heap w))
                      ∧ log w1 = log w ++ [EvCreate (length (heap w))]).
        { unfold w1. rewrite Hr. simpl. rewrite length_app. simpl.
          split; [done|]. split; [lia|done]. }
        destruct Hw1 as (Hrefs & Hlen & Hlog).
        destruct (activate_inv hk0 effect w1 (PReady (length (heap w)))) as (h' & Hs' & _).
        -- simpl. lia.
        -- rewrite Hlog, scan_app, Hs. done.
        -- left. exists (length (heap w)). rewrite Hrefs. simpl.
           split; [done|]. split.
           { rewrite lookup_app_r by lia. by rewrite Nat.sub_diag. }
           split.
           { rewrite lookup_app_r by lia.
             by replace (S (length (refs w)) - length (refs w)) with 1 by lia. }
           lia.
        -- exists (PActive h'). split; [|done].
           by destruct (effect_callback hk0 effect w1) as [[d|e'] w2].
      * destruct Hag as (h & -> & Hlive).
        rewrite (step_render_live _ _ _ _ (live_hooks_ok _ _ _ Hlive)) in Hres |- *.
        cbv zeta in Hres |- *.
        destruct (has_effect (Some hk) deps); [|discriminate].
        destruct (cleanup_inv hk w h Hs Hlive) as (Hs1 & Hr1 & Hl1).
        destruct (run_cleanup hk w) as [[[]|e'] w1]; simpl in *.
        -- set (hk' := mkHooks _ _ _ _) in *.
           destruct Hlive as (Hne & Hf & Hc & Hh & _).
           destruct (activate_inv hk' effect w1 (PIdle h)) as (h' & Hs' & _); auto.
           { right. exists h. rewrite Hr1, Hl1.
             repeat split; auto. by eapply lookup_lt_Some. }
           exists (PActive h'). split; [|done].
           by destruct (effect_callback hk' effect w1) as [[d|e''] w2].
        -- by exists (PIdle h).
      * discriminate.
    + destruct i as [|hk|]; try discriminate.
      destruct Hag as (h & -> & Hlive).
      destruct (cleanup_inv hk w h Hs Hlive) as (Hs1 & _).
      rewrite step_unmount. exists (PIdle h). split; [|done].
      by destruct (run_cleanup hk w) as [[[]|e'] w1].
    + destruct i; discriminate.
Qed.

Lemma run_phase acts i w p :
  scan PInit (log w) = Some p → agrees i w p →
  ∃ p', scan PInit (log (run acts i w).2) = Some p' ∧ not_ready p'.
Proof.
  revert i w p. induction acts as [|a acts IH]; intros i w p Hs Hag; simpl.
  - exists p. split; [done|]. by eapply agrees_not_ready.
  - destruct (step_inv a i w p Hs Hag) as (p1 & Hs1 & Hag1).
    destruct (step_phase a i w p Hs Hag) as (p1' & Hs1' & Hnr).
    unfold bind. destruct (step a i w) as [[i1|e] w1]; simpl in *.
    + apply (IH i1 w1 p1); auto.
    + eauto.
Qed.
End creates.

(** X4.  The hook makes no controller that does not serve a run: in every
    life of an instance, also one that an exception cuts short, as many
    controllers were made as [effect] was called.  The first render makes
    the controller of the first run, every later run makes its own. *)
Theorem every_controller_serves_a_run acts w0 :
  log w0 = [] →
  count is_create (log (run acts Fresh w0).2)
  = count is_effect_event (log (run acts Fresh w0).2).
Proof.
  intros H0.
  destruct (run_phase acts Fresh w0 PInit) as (p & Hs & Hnr).
  - by rewrite H0.
  - done.
  - rewrite (scan_creates _ _ Hs). destruct p; simpl in *; [lia|done|lia|lia].
Qed.

Lemma every_controller_serves_a_run_witness :
  log (empty_world false) = []
  ∧ count is_create
      (log (run [Render effect_custom None; Render effect_throw None; Unmount]
              Fresh (empty_world false)).2)
    = count is_effect_event
        (log (run [Render effect_custom None; Render effect_throw None; Unmount]
                Fresh (empty_world false)).2).
Proof.
  split; [reflexivity|].
  exact (every_controller_serves_a_run
           [Render effect_custom None; Render effect_throw None; Unmount]
           (empty_world false) eq_refl).
Defined.

(** ** The ref objects of others *)

Section frame.
Implicit Types (w : World) (h : Handle) (hk : Hooks) (effect : EffectFn)
  (rs : list JsVal).

(** A run of the callback writes one of the hook's two ref objects and no
    other. *)
Lemma callback_refs hk effect w :
  hooks_ok hk w →
  ∃ r v, (r = firstRun hk ∨ r = controllerRef hk)
         ∧ refs (effect_callback hk effect w).2 = <[r := v]> (refs w).
Proof.
  intros (Hne & (b & Hf) & (h & Hc & Hh)).
  pose proof (lookup_lt_Some _ _ _ Hc) as Hlc.
  destruct b.
  - pose proof (invocation_first hk w h Hne Hf Hc) as Hi.
    rewrite (effect_callback_invocation _ _ _ _ _ Hi). simpl.
    match goal with |- context [user_ops ?ops ?w1] =>
      destruct (user_ops_keeps ops w1) as (_ & -> & _) end.
    exists (firstRun hk), js_false. auto.
  - pose proof (invocation_later hk w Hne Hf Hlc) as Hi.
    rewrite (effect_callback_invocation _ _ _ _ _ Hi). simpl.
    match goal with |- context [user_ops ?ops ?w1] =>
      destruct (user_ops_keeps ops w1) as (_ & -> & _) end.
    exists (controllerRef hk), (VController (length (heap w))). auto.
Qed.

Lemma own_refs_insert n rs w r v :
  n ≤ r → (∀ r', r' < n → refs w !! r' = rs !! r') →
  ∀ r', r' < n → <[r := v]> (refs w) !! r' = rs !! r'.
Proof.
  intros Hle Hlow r' Hr'. rewrite list_lookup_insert_ne by lia. by apply Hlow.
Qed.

Lemma step_own_refs n rs a i w p :
  agrees i w p → own_refs n rs i w →
  (∀ r, r < n → refs (step a i w).2 !! r = rs !! r)
  ∧ (length (refs (step a i w).2) = n ∨ length (refs (step a i w).2) = n + 2)
  ∧ ∀ i', (step a i w).1 = Ok i' → own_refs n rs i' (step a i w).2.
Proof.
  intros Hag [Hlow Hi]. destruct a as [effect deps| |ops].
  - destruct i as [|hk|].
    + rewrite step_render_fresh. cbv zeta.
      pose proof (render_first effect deps w) as Hr.
      pose proof (render_first_ok effect deps w) as Hok.
      set (w1 := (useAbortableEffect effect deps None w).2) in *.
      set (hk0 := mkHooks _ _ _ _) in *.
      assert (Hrefs : refs w1 = refs w ++ [js_true; VController (length (heap w))])
        by (unfold w1; by rewrite Hr).
      destruct (callback_refs hk0 effect w1 Hok) as (r & v & Hrv & Hrefs').
      assert (Hn : n ≤ r) by (destruct Hrv as [->| ->]; simpl; lia).
      assert (Hlow' : ∀ r', r' < n → refs (effect_callback hk0 effect w1).2 !! r' = rs !! r').
      { rewrite Hrefs'. apply own_refs_insert; [done|].
        intros r' Hr'. rewrite Hrefs, lookup_app_l by lia. by apply Hlow. }
      assert (Hlen : length (refs (effect_callback hk0 effect w1).2) = n + 2).
      { rewrite Hrefs', length_insert, Hrefs, length_app. simpl. lia. }
      destruct (effect_callback hk0 effect w1) as [[d|e] w2]; simpl in *.
      * split; [done|]. split; [by right|]. intros i' [= <-].
        split; [done|]. split; [done|]. unfold hk0. simpl. lia.
      * split; [done|]. split; [by right|]. intros i'. discriminate.
    + destruct Hag as (h & _ & Hlive). destruct Hi as (Hlen & Hfr & Hcr).
      rewrite (step_render_live _ _ _ _ (live_hooks_ok _ _ _ Hlive)). cbv zeta.
      destruct (has_effect (Some hk) deps).
      * destruct (run_cleanup_frame hk w h Hlive) as (Hr1 & Hl1).
        pose proof Hlive as (Hne & Hf & Hc & Hh & _).
        destruct (run_cleanup hk w) as [[[]|e] w1]; simpl in *.
        -- set (hk' := mkHooks _ _ _ _) in *.
           assert (Hok1 : hooks_ok hk' w1).
           { split; [done|]. simpl. rewrite Hr1, Hl1.
             split; [by exists false|eauto]. }
           destruct (callback_refs hk' effect w1 Hok1) as (r & v & Hrv & Hrefs').
           assert (Hn : n ≤ r) by (destruct Hrv as [->| ->]; simpl; lia).
           assert (Hlow' : ∀ r', r' < n →
                     refs (effect_callback hk' effect w1).2 !! r' = rs !! r').
           { rewrite Hrefs'. apply own_refs_insert; [done|]. by rewrite Hr1. }
           assert (Hlen' : length (refs (effect_callback hk' effect w1).2) = n + 2).
           { by rewrite Hrefs', length_insert, Hr1. }
           destruct (effect_callback hk' effect w1) as [[d|e] w2]; simpl in *.
           ++ split; [done|]. split; [by right|]. intros i' [= <-]. simpl.
              split; [done|]. done.
           ++ split; [done|]. split; [by right|]. intros i'. discriminate.
        -- rewrite Hr1. split; [done|]. split; [by right|]. intros i'. discriminate.
      * simpl. split; [done|]. split; [by right|]. intros i' [= <-]. by split.
    + simpl. split; [done|]. split; [by right|]. intros i' [= <-]. by split.
  - destruct i as [|hk|]; simpl.
    + split; [done|]. split; [by left|]. intros i' [= <-]. by split.
    + destruct Hag as (h & _ & Hlive). destruct Hi as (Hlen & _).
      destruct (run_cleanup_frame hk w h Hlive) as (Hr1 & _).
      change (bind (run_cleanup hk) (λ _ : (), ret Dead) w)
        with (step Unmount (Live hk) w).
      rewrite step_unmount.
      destruct (run_cleanup hk w) as [[[]|e] w1]; simpl in *; rewrite Hr1.
      * split; [done|]. split; [by right|]. intros i' [= <-].
        unfold own_refs. rewrite Hr1. by split.
      * split; [done|]. split; [by right|]. intros i'. discriminate.
    + split; [done|]. split; [by right|]. intros i' [= <-]. by split.
  - unfold step, bind, modify, ret. simpl.
    destruct (user_ops_keeps ops w) as (_ & Hr & _). rewrite Hr.
    split; [done|]. split.
    + destruct i as [|hk|]; [by left|right; by destruct Hi|by right].
    + intros i' [= <-]. unfold own_refs. rewrite Hr. by split.
Qed.

Lemma run_own_refs n rs acts i w p :
  scan PInit (log w) = Some p → agrees i w p → own_refs n rs i w →
  (∀ r, r < n → refs (run acts i w).2 !! r = rs !! r)
  ∧ (length (refs (run acts i w).2) = n ∨ length (refs (run acts i w).2) = n + 2).
Proof.
  revert i w p. induction acts as [|a acts IH]; intros i w p Hs Hag Hown; simpl.
  - destruct Hown as [Hlow Hi]. split; [done|].
    destruct i as [|hk|]; [by left|right; by destruct Hi|by right].
  - destruct (step_inv a i w p Hs Hag) as (p1 & Hs1 & Hag1).
    destruct (step_own_refs n rs a i w p Hag Hown) as (Hlow1 & Hlen1 & Hown1).
    unfold bind. destruct (step a i w) as [[i1|e] w1]; simpl in *.
    + apply (IH i1 w1 p1); auto.
    + by split.
Qed.
End frame.

(** X5.  The hook keeps to its own two ref objects.  Through any life of an
    instance every ref object that was in the store before holds what it
    held, and the hook makes two ref objects, in the first render, and none
    later. *)
Theorem other_refs_untouched acts w0 r v :
  log w0 = [] →
  refs w0 !! r = Some v →
  refs (run acts Fresh w0).2 !! r = Some v
  ∧ (length (refs (run acts Fresh w0).2) = length (refs w0)
     ∨ length (refs (run acts Fresh w0).2) = length (refs w0) + 2).
Proof.
  intros H0 Hr.
  destruct (run_own_refs (length (refs w0)) (refs w0) acts Fresh w0 PInit)
    as (Hlow & Hlen).
  - by rewrite H0.
  - done.
  - by split.
  - split; [|done]. rewrite Hlow; [done|]. by eapply lookup_lt_Some.
Qed.

Lemma other_refs_untouched_witness :
  log (mkWorld true [] [VPrim (PNum (number 42))] []) = []
  ∧ refs (run default_life Fresh (mkWorld true [] [VPrim (PNum (number 42))] [])).2 !! 0
    = Some (VPrim (PNum (number 42))).
Proof.
  split; [reflexivity|].
  destruct (other_refs_untouched default_life (mkWorld true [] [VPrim (PNum (number 42))] [])
              0 (VPrim (PNum (number 42))) eq_refl eq_refl) as [Hr _].
  exact Hr.
Defined.
(** ** Aborting through the ref object *)

(** X6.  In an environment that has [AbortController], at any moment of the
    life of a live instance, [ref.current.abort()] in a handler aborts the
    controller whose signal the most recent call of [effect] was given,
    changes no other controller and leaves the ref objects as they are. *)
Theorem manual_abort_reaches_current_run acts w0 hk w :
  has_AbortController w0 = true →
  heap w0 = [] →
  log w0 = [] →
  run acts Fresh w0 = (Ok (Live hk), w) →
  ∃ h, latest_activation (log w) = Some (VSignal h)
       ∧ step (Outside [UAbortCurrent (controllerRef hk)]) (Live hk) w
         = (Ok (Live hk), call_abort ByUser h w)
       ∧ signal_aborted h (call_abort ByUser h w) = true
       ∧ (∀ k, k ≠ h → heap (call_abort ByUser h w) !! k = heap w !! k)
       ∧ refs (call_abort ByUser h w) = refs w.
Proof.
  intros Ha Hh H0 Hrun.
  destruct (run_from_fresh acts w0 H0) as (p & Hs & Hag).
  pose proof (tracked_run acts Fresh w0) as Hrtc.
  rewrite Hrun in Hs, Hag, Hrtc. simpl in *.
  destruct (Hag (Live hk) eq_refl) as (h & -> & Hlive).
  assert (Hnat : all_native w).
  { eapply all_native_rtc; [exact Hrtc|]. split; [done|].
    intros k c. rewrite Hh, lookup_nil. discriminate. }
  destruct Hlive as (Hne & Hf & Hc & Hlt & _).
  exists h. split; [apply (scan_latest _ _ Hs)|]. split.
  { unfold step, bind, modify, ret, user_ops. simpl. by rewrite Hc. }
  split.
  { destruct (lookup_lt_is_Some_2 _ _ Hlt) as [c Hc'].
    eapply call_abort_sets; [exact Hc'|]. destruct Hnat as [_ Hk]. by eapply Hk. }
  split; [intros k Hk; by apply call_abort_other|].
  by destruct (call_abort_keeps h w) as (_ & ? & _).
Qed.

Lemma manual_abort_reaches_current_run_witness :
  has_AbortController (empty_world true) = true
  ∧ ∃ h, latest_activation (log sample_live_world) = Some (VSignal h)
         ∧ signal_aborted h (call_abort ByUser h sample_live_world) = true.
Proof.
  split; [reflexivity|].
  destruct (manual_abort_reaches_current_run [Render effect_nothing None]
              (empty_world true) sample_live_hooks sample_live_world
              eq_refl eq_refl eq_refl eq_refl) as (h & Hl & _ & Hab & _).
  exists h. split; [exact Hl|exact Hab].
Defined.

(** ** With and without the host's primitive *)

Section alike.
Implicit Types (w : World) (h : Handle) (hk : Hooks) (effect : EffectFn).

Lemma alike_refl w : alike w w.
Proof. by repeat split. Qed.

Lemma alike_sym w w' : alike w w' → alike w' w.
Proof. intros (? & ? & ?). by repeat split. Qed.

Lemma alike_trans w1 w2 w3 : alike w1 w2 → alike w2 w3 → alike w1 w3.
Proof. intros (? & ? & ?) (? & ? & ?). repeat split; congruence. Qed.

Lemma steps_of_app evs1 evs2 : steps_of (evs1 ++ evs2) = steps_of evs1 ++ steps_of evs2.
Proof. apply filter_app. Qed.

Lemma steps_of_notify h ls : steps_of (map (EvNotify h) ls) = [].
Proof.
  induction ls as [|l ls IH]; [done|].
  unfold steps_of in *. simpl. rewrite filter_cons. by case_decide.
Qed.

Lemma alike_emit evs w w' : alike w w' → alike (emit evs w) (emit evs w').
Proof.
  intros (Hr & Hl & Hs). repeat split; simpl; try done.
  by rewrite !steps_of_app, Hs.
Qed.

(** What the controller does when [abort()] is called makes no
    difference. *)
Lemma abort_object_alike h w : alike w (abort_object h w).
Proof.
  unfold abort_object.
  destruct (heap w !! h) as [c|]; [|apply alike_refl].
  destruct (kind c); [|apply alike_refl].
  destruct (aborted c); [apply alike_refl|].
  repeat split; simpl.
  - by rewrite length_insert.
  - by rewrite steps_of_app, steps_of_notify, app_nil_r.
Qed.

Lemma add_listener_alike h l w : alike w (add_listener h l w).
Proof.
  unfold add_listener.
  destruct (heap w !! h) as [c|]; [|apply alike_refl].
  destruct (kind c); [|apply alike_refl].
  case_bool_decide; [apply alike_refl|].
  repeat split; simpl. by rewrite length_insert.
Qed.

Lemma remove_listener_alike h l w : alike w (remove_listener h l w).
Proof.
  unfold remove_listener.
  destruct (heap w !! h) as [c|]; [|apply alike_refl].
  destruct (kind c); [|apply alike_refl].
  repeat split; simpl. by rewrite length_insert.
Qed.

Lemma call_abort_alike who h w w' :
  alike w w' → alike (call_abort who h w) (call_abort who h w').
Proof.
  intros Hal. unfold call_abort.
  eapply alike_trans; [apply alike_sym, abort_object_alike|].
  eapply alike_trans; [|apply abort_object_alike].
  by apply alike_emit.
Qed.

Lemma user_op_alike op w w' : alike w w' → alike (user_op w op) (user_op w' op).
Proof.
  intros Hal. destruct op as [h|r|h l|h l]; simpl.
  - by apply call_abort_alike.
  - destruct Hal as (Hr & Hrest). rewrite <- Hr.
    destruct (refs w !! r) as [[| |h|]|]; try (by split).
    apply call_abort_alike. by split.
  - eapply alike_trans; [apply alike_sym, add_listener_alike|].
    eapply alike_trans; [exact Hal|apply add_listener_alike].
  - eapply alike_trans; [apply alike_sym, remove_listener_alike|].
    eapply alike_trans; [exact Hal|apply remove_listener_alike].
Qed.

Lemma user_ops_alike ops w w' : alike w w' → alike (user_ops ops w) (user_ops ops w').
Proof.
  unfold user_ops. revert w w'.
  induction ops as [|op ops IH]; intros w w' Hal; simpl; [done|].
  by apply IH, user_op_alike.
Qed.

Lemma alike_ret {A} (a : A) : alike_run (ret a).
Proof. by intros w w' Hal. Qed.

Lemma alike_throw {A} e : alike_run (@throw A e).
Proof. by intros w w' Hal. Qed.

Lemma alike_bind {A B} (m : M A) (k : A → M B) :
  alike_run m → (∀ a, alike_run (k a)) → alike_run (bind m k).
Proof.
  intros Hm Hk w w' Hal. unfold bind. destruct (Hm w w' Hal) as [Hres Hal1].
  destruct (m w) as [[a|e] w1], (m w') as [[a'|e'] w1']; simpl in *;
    simplify_eq; [by apply Hk|done].
Qed.

Lemma alike_bind_post {A B} (P : A → Prop) (m : M A) (k : A → M B) :
  alike_run m → (∀ w a, (m w).1 = Ok a → P a) → (∀ a, P a → alike_run (k a)) →
  alike_run (bind m k).
Proof.
  intros Hm HP Hk w w' Hal. unfold bind. destruct (Hm w w' Hal) as [Hres Hal1].
  pose proof (HP w) as HPw.
  destruct (m w) as [[a|e] w1], (m w') as [[a'|e'] w1']; simpl in *;
    simplify_eq; [|done].
  apply Hk; [by apply HPw|done].
Qed.

Lemma alike_modify (f : World → World) :
  (∀ w w', alike w w' → alike (f w) (f w')) → alike_run (modify f).
Proof. intros Hf w w' Hal. split; [done|]. by apply Hf. Qed.

Lemma alike_create : alike_run createAbortController.
Proof.
  intros w w' (Hr & Hl & Hs). unfold createAbortController. simpl.
  rewrite Hl. split; [done|]. repeat split; simpl.
  - done.
  - rewrite !length_app. simpl. lia.
  - by rewrite !steps_of_app, Hs.
Qed.

Lemma alike_get r : alike_run (get_current r).
Proof.
  intros w w' Hal. unfold get_current. simpl.
  destruct Hal as (Hr & Hrest). rewrite Hr. split; [done|]. by split.
Qed.

Lemma alike_set r v : alike_run (set_current r v).
Proof.
  apply alike_modify. intros w w' (Hr & Hl & Hs). repeat split; simpl; try done.
  by rewrite Hr.
Qed.

Lemma alike_new_ref v : alike_run (new_ref v).
Proof.
  intros w w' (Hr & Hl & Hs). unfold new_ref. simpl. rewrite Hr.
  split; [done|]. by repeat split.
Qed.

Lemma alike_call {A} (f : UserFn A) arg : blind f → alike_run (call_user f arg).
Proof.
  intros Hb w w' Hal. unfold call_user. rewrite (Hb arg w w' Hal).
  destruct (f arg w') as [ops r]. simpl. split; [done|]. by apply user_ops_alike.
Qed.

Lemma alike_useRef memo init : alike_run (useRef memo init).
Proof. destruct memo; [apply alike_ret|apply alike_new_ref]. Qed.

Lemma alike_get_signal v : alike_run (get_signal v).
Proof. destruct v as [[]| | |]; first [apply alike_ret|apply alike_throw]. Qed.

Lemma alike_method_abort who v : alike_run (method_abort who v).
Proof.
  destruct v as [| |h|]; try apply alike_throw.
  apply alike_modify. intros w w'. apply call_abort_alike.
Qed.

Lemma alike_render effect deps memo : alike_run (useAbortableEffect effect deps memo).
Proof.
  unfold useAbortableEffect.
  apply alike_bind; [apply alike_useRef|intros fr].
  apply alike_bind; [apply alike_useRef|intros cr].
  apply alike_bind; [apply alike_get|intros cur].
  apply alike_bind; [|intros; apply alike_ret].
  destruct (js_not cur); [|apply alike_ret].
  apply alike_bind; [apply alike_create|intros; apply alike_set].
Qed.

Lemma alike_select hk : alike_run (select_controller hk).
Proof.
  unfold select_controller.
  apply alike_bind; [apply alike_get|intros fr].
  apply alike_bind; [|intros; apply alike_get].
  destruct (strict_equals fr js_false); [|apply alike_set].
  apply alike_bind; [apply alike_create|intros; apply alike_set].
Qed.

Lemma alike_callback hk effect : blind_effect effect → alike_run (effect_callback hk effect).
Proof.
  intros [Hb _]. unfold effect_callback, invoke_effect.
  apply alike_bind; [apply alike_select|intros c].
  apply alike_bind; [apply alike_get_signal|intros s].
  apply alike_bind.
  { apply alike_modify. intros w w'. apply alike_emit. }
  intros _. apply alike_bind; [by apply alike_call|].
  intros [f|v]; apply alike_ret.
Qed.

Lemma alike_destroy d : blind_destroy d → alike_run (run_destroy d).
Proof.
  destruct d as [f c|c]; simpl; intros Hb; [|apply alike_method_abort].
  apply alike_bind; [|intros; by apply alike_call].
  apply alike_modify. intros w w'. apply alike_emit.
Qed.

Lemma alike_cleanup hk : blind_hooks hk → alike_run (run_cleanup hk).
Proof.
  unfold run_cleanup, blind_hooks. destruct (effect_destroy hk);
    [apply alike_destroy|intros; apply alike_ret].
Qed.

(** What a render hands on: the cleanup of the previous run, and the
    [effect] of this render or none. *)
Lemma render_result effect deps memo w :
  ∃ r, (useAbortableEffect effect deps memo w).1 = Ok r
       ∧ effect_destroy (hooks r) = memo ≫= effect_destroy
       ∧ (pending r = Some effect ∨ pending r = None).
Proof.
  unfold useAbortableEffect, bind.
  destruct (useRef (firstRun <$> memo) js_true w) as [[fr|e] w1] eqn:H1.
  2: { destruct memo; discriminate. }
  destruct (useRef (controllerRef <$> memo) undefined w1) as [[cr|e] w2] eqn:H2.
  2: { destruct memo; discriminate. }
  simpl. destruct (js_not _); simpl.
  - eexists. split; [done|]. split; [done|].
    destruct (has_effect memo deps); auto.
  - eexists. split; [done|]. split; [done|].
    destruct (has_effect memo deps); auto.
Qed.

Lemma callback_blind hk effect w d :
  blind_effect effect → (effect_callback hk effect w).1 = Ok d → blind_destroy d.
Proof.
  intros [_ Hf]. unfold effect_callback, invoke_effect, bind.
  destruct (select_controller hk w) as [[c|e] w1]; [|discriminate].
  destruct (get_signal c w1) as [[s|e] w2]; [|discriminate].
  unfold modify, call_user, ret. simpl.
  destruct (effect s _) as [ops [[f|v]|e]] eqn:He; simpl; try discriminate.
  - intros [= <-]. simpl. eapply (Hf s). by rewrite He.
  - by intros [= <-].
Qed.

Lemma alike_commit r :
  blind_hooks (hooks r) → (∀ e, pending r = Some e → blind_effect e) →
  alike_run (commit r).
Proof.
  intros Hh Hp. unfold commit. destruct (pending r) as [e|]; [|apply alike_ret].
  apply alike_bind; [by apply alike_cleanup|intros _].
  apply alike_bind; [apply alike_callback; by apply Hp|intros; apply alike_ret].
Qed.

Lemma commit_blind r w hk :
  blind_hooks (hooks r) → (∀ e, pending r = Some e → blind_effect e) →
  (commit r w).1 = Ok hk → blind_hooks hk.
Proof.
  intros Hh Hp. unfold commit. destruct (pending r) as [e|]; [|by intros [= <-]].
  unfold bind. destruct (run_cleanup (hooks r) w) as [[[]|e'] w1]; [|discriminate].
  destruct (effect_callback _ e w1) as [[d|e'] w2] eqn:Hcb; [|discriminate].
  intros [= <-]. unfold blind_hooks. simpl.
  eapply callback_blind; [by apply Hp|]. by rewrite Hcb.
Qed.

Lemma alike_step a i : blind_action a → blind_instance i → alike_run (step a i).
Proof.
  intros Ha Hi. destruct a as [effect deps| |ops].
  - assert (Hgo : ∀ memo, (memo = None ∨ ∃ hk, memo = Some hk ∧ blind_hooks hk) →
              alike_run (bind (useAbortableEffect effect deps memo)
                           (λ r, bind (commit r) (λ hk, ret (Live hk))))).
    { intros memo Hmemo.
      apply (alike_bind_post
               (λ r, blind_hooks (hooks r) ∧ ∀ e, pending r = Some e → blind_effect e)).
      - apply alike_render.
      - intros w1 r Hr.
        destruct (render_result effect deps memo w1) as (r' & Hr' & Hd & Hp).
        rewrite Hr in Hr'. injection Hr' as <-. split.
        + unfold blind_hooks. rewrite Hd.
          destruct Hmemo as [->|(hk & -> & Hhk)]; [done|exact Hhk].
        + intros e He. destruct Hp as [Hp|Hp]; rewrite Hp in He; by simplify_eq.
      - intros r [Hh Hp].
        apply alike_bind; [by apply alike_commit|intros; apply alike_ret]. }
    destruct i as [|hk|].
    + apply (Hgo None); auto.
    + apply (Hgo (Some hk)); eauto.
    + apply alike_ret.
  - destruct i as [|hk|]; try apply alike_ret.
    apply (alike_bind (run_cleanup hk) (λ _, ret Dead));
      [by apply alike_cleanup|intros; apply alike_ret].
  - assert (Hgo : alike_run (bind (modify (user_ops ops)) (λ _, ret i))).
    { apply alike_bind; [|intros; apply alike_ret].
      apply alike_modify. intros w1 w1'. apply user_ops_alike. }
    by destruct i.
Qed.

Lemma step_blind a i w i' :
  blind_action a → blind_instance i → (step a i w).1 = Ok i' → blind_instance i'.
Proof.
  intros Ha Hi. destruct a as [effect deps| |ops].
  - assert (Hgo : ∀ memo, (memo = None ∨ ∃ hk, memo = Some hk ∧ blind_hooks hk) →
              (bind (useAbortableEffect effect deps memo)
                 (λ r, bind (commit r) (λ hk, ret (Live hk))) w).1 = Ok i' →
              blind_instance i').
    { intros memo Hmemo. unfold bind at 1.
      destruct (render_result effect deps memo w) as (r & Hr & Hd & Hp).
      destruct (useAbortableEffect effect deps memo w) as [res w1].
      simpl in Hr. subst res. unfold bind.
      destruct (commit r w1) as [[hk'|e] w2] eqn:Hc; [|discriminate].
      intros [= <-]. simpl. eapply (commit_blind r w1).
      - unfold blind_hooks. rewrite Hd.
        destruct Hmemo as [->|(hk & -> & Hhk)]; [done|exact Hhk].
      - intros e He. destruct Hp as [Hp|Hp]; rewrite Hp in He; by simplify_eq.
      - by rewrite Hc. }
    destruct i as [|hk|].
    + apply (Hgo None); auto.
    + apply (Hgo (Some hk)); eauto.
    + by intros [= <-].
  - destruct i as [|hk|]; simpl; try by intros [= <-].
    unfold bind. destruct (run_cleanup hk w) as [[[]|e] w1]; [|discriminate].
    by intros [= <-].
  - simpl. unfold bind, modify, ret. simpl. by intros [= <-].
Qed.

Lemma alike_run_acts acts i :
  Forall blind_action acts → blind_instance i → alike_run (run acts i).
Proof.
  revert i. induction acts as [|a acts IH]; intros i Hacts Hi; simpl.
  - apply alike_ret.
  - apply Forall_cons in Hacts as [Ha Hacts].
    intros w w' Hal. unfold bind.
    destruct (alike_step a i Ha Hi w w' Hal) as [Hres Hal1].
    pose proof (step_blind a i w) as Hb.
    destruct (step a i w) as [[i1|e] w1], (step a i w') as [[i1'|e'] w1'];
      simpl in *; simplify_eq; [|done].
    apply IH; auto.
Qed.
End alike.

(** X7.  Without [AbortController] the hook takes the same steps as with
    it.  For code of the caller that does not look at the state of
    controllers, a life in two stores that have the same ref objects and as
    many controllers, one with the host's controllers and one with mock
    objects, say, ends the same way, with the same ref objects, as many
    controllers, and the same events in the same order, apart from the
    notifications of listeners. *)
Theorem fallback_takes_same_steps acts w w' :
  Forall blind_action acts →
  alike w w' →
  (run acts Fresh w).1 = (run acts Fresh w').1
  ∧ refs (run acts Fresh w).2 = refs (run acts Fresh w').2
  ∧ length (heap (run acts Fresh w).2) = length (heap (run acts Fresh w').2)
  ∧ steps_of (log (run acts Fresh w).2) = steps_of (log (run acts Fresh w').2).
Proof.
  intros Hacts Hal.
  destruct (alike_run_acts acts Fresh Hacts I w w' Hal) as [Hres (Hr & Hl & Hs)].
  done.
Qed.

Lemma mixed_life_blind : Forall blind_action mixed_life.
Proof.
  repeat apply Forall_cons_2; try apply Forall_nil_2; try exact I.
  - split; [intros arg w w' _; reflexivity|]. intros arg w f H. discriminate H.
  - split; [intros arg w w' _; reflexivity|]. intros arg w f H.
    injection H as <-. intros c w1 w1' _. reflexivity.
Defined.

Lemma fallback_takes_same_steps_witness :
  alike (empty_world true) (empty_world false)
  ∧ steps_of (log (run mixed_life Fresh (empty_world true)).2)
    = steps_of (log (run mixed_life Fresh (empty_world false)).2).
Proof.
  assert (Hal : alike (empty_world true) (empty_world false)).
  { split; [reflexivity|]. split; reflexivity. }
  split; [exact Hal|].
  destruct (fallback_takes_same_steps mixed_life (empty_world true) (empty_world false)
              mixed_life_blind Hal) as (_ & _ & _ & Hs).
  exact Hs.
Defined.
